(** * dynspv_generator: the SPIR-V builder generator, embedded and verified

    A shallow embedding of [dynspv_generator.py].  The script reads the
    SPIR-V grammar (a JSON document), and emits one C++ builder function
    per instruction.  Everything the script computes is text, so the
    embedding works on strings throughout, exactly as the script does:
    a resolved C++ type is the text of the type, and the later passes
    recognise optional, vector and tuple types by the prefix of that text.

    Conventions of the embedding.
    - A Python [str] is a [string]; the grammar is an ASCII document, and
      the character classes used below ([isupper], [lower], [upper], the
      regular-expression classes [\w] and [\d]) are those of Python on code
      points below 128.  Code points from 128 on are treated as caseless
      characters outside [\w].
    - A JSON object is a record; a key that may be absent is an [option].
    - A raised exception is the [Raise] case of [result]; the exceptions are
      the ones the script can raise.
    - [get_base_cpp_type] is recursive without a guard; its embedding takes
      the remaining recursion depth and raises [RecursionError] when it is
      used up, as the interpreter does. *)

From Stdlib Require Import Ascii NArith DecimalString DecimalNat.
From stdpp Require Import gmap strings list sorting.

(** ** Exceptions *)

Inductive exn : Type :=
  | KeyError (key : string)
  | NotImplementedError (msg value : string)
  | AttributeError
  | AssertionError
  | RecursionError.

Inductive result (A : Type) : Type :=
  | Ok (a : A)
  | Raise (e : exn).
Arguments Ok {A} a.
Arguments Raise {A} e.

Definition bind {A B} (r : result A) (k : A -> result B) : result B :=
  match r with
  | Ok a => k a
  | Raise e => Raise e
  end.

Notation "'let*' x ':=' r 'in' k" := (bind r (fun x => k))
  (at level 10, x name, r at level 100, k at level 200).

(** [map f xs] consumed by a strict consumer ([list], [join]): the elements
    are computed in order and the first exception ends the run. *)
Fixpoint map_result {A B} (f : A -> result B) (xs : list A) : result (list B) :=
  match xs with
  | [] => Ok []
  | x :: xs' =>
      let* y := f x in
      let* ys := map_result f xs' in
      Ok (y :: ys)
  end.

Definition is_ok {A} (r : result A) : Prop := exists a, r = Ok a.
Definition is_raise {A} (r : result A) : Prop := exists e, r = Raise e.

(** ** The Python string operations the script uses *)

Module Py.

Definition code (c : ascii) : N := N_of_ascii c.

Definition is_upper_char (c : ascii) : bool :=
  ((65 <=? code c) && (code c <=? 90))%N.
Definition is_lower_char (c : ascii) : bool :=
  ((97 <=? code c) && (code c <=? 122))%N.
Definition is_digit_char (c : ascii) : bool :=
  ((48 <=? code c) && (code c <=? 57))%N.
Definition is_alpha_char (c : ascii) : bool :=
  is_upper_char c || is_lower_char c.
(** [\w] *)
Definition is_word_char (c : ascii) : bool :=
  is_alpha_char c || is_digit_char c || Ascii.eqb c "_".
(** the characters [str.strip] removes *)
Definition is_space_char (c : ascii) : bool :=
  ((9 <=? code c) && (code c <=? 13))%N
  || ((28 <=? code c) && (code c <=? 32))%N.

Definition lower_char (c : ascii) : ascii :=
  if is_upper_char c then ascii_of_N (code c + 32) else c.
Definition upper_char (c : ascii) : ascii :=
  if is_lower_char c then ascii_of_N (code c - 32) else c.

Fixpoint map_chars (f : ascii -> ascii) (s : string) : string :=
  match s with
  | EmptyString => EmptyString
  | String c s' => String (f c) (map_chars f s')
  end.
Fixpoint filter_chars (p : ascii -> bool) (s : string) : string :=
  match s with
  | EmptyString => EmptyString
  | String c s' => if p c then String c (filter_chars p s') else filter_chars p s'
  end.
Fixpoint any_char (p : ascii -> bool) (s : string) : bool :=
  match s with
  | EmptyString => false
  | String c s' => p c || any_char p s'
  end.
Fixpoint all_chars (p : ascii -> bool) (s : string) : bool :=
  match s with
  | EmptyString => true
  | String c s' => p c && all_chars p s'
  end.

(** [s.lower()], [s.upper()] *)
Definition lower : string -> string := map_chars lower_char.
Definition upper : string -> string := map_chars upper_char.

(** [s.isupper()]: no lower-case character and at least one upper-case
    character. *)
Definition isupper (s : string) : bool :=
  negb (any_char is_lower_char s) && any_char is_upper_char s.

(** [s[:1]] and [s[1:]] *)
Definition head1 (s : string) : string :=
  match s with
  | EmptyString => EmptyString
  | String c _ => String c EmptyString
  end.
Definition tail1 (s : string) : string :=
  match s with
  | EmptyString => EmptyString
  | String _ s' => s'
  end.

(** [s[n:]] *)
Fixpoint drop_chars (n : nat) (s : string) : string :=
  match n, s with
  | S n', String _ s' => drop_chars n' s'
  | _, _ => s
  end.

(** [s.startswith(p)] *)
Definition startswith (s p : string) : bool := String.prefix p s.

(** [p in s] *)
Fixpoint contains (p s : string) : bool :=
  startswith s p ||
  match s with
  | EmptyString => false
  | String _ s' => contains p s'
  end.

(** [sep.join(xs)] *)
Definition join (sep : string) (xs : list string) : string :=
  String.concat sep xs.

(** [s.split] on the space character: every single space separates, empty pieces are kept. *)
Fixpoint split_space (s : string) : list string :=
  match s with
  | EmptyString => [EmptyString]
  | String c s' =>
      if Ascii.eqb c " " then EmptyString :: split_space s'
      else match split_space s' with
           | [] => [String c EmptyString]
           | w :: ws => String c w :: ws
           end
  end.

(** [s.strip()] *)
Fixpoint lstrip (s : string) : string :=
  match s with
  | EmptyString => EmptyString
  | String c s' => if is_space_char c then lstrip s' else s
  end.
Fixpoint rstrip (s : string) : string :=
  match s with
  | EmptyString => EmptyString
  | String c s' =>
      match rstrip s' with
      | EmptyString => if is_space_char c then EmptyString else String c EmptyString
      | r => String c r
      end
  end.
Definition strip (s : string) : string := rstrip (lstrip s).

(** [str(n)] for a non-negative integer *)
Definition str_of_nat (n : nat) : string :=
  NilEmpty.string_of_uint (Nat.to_uint n).

(** [list(set(xs))]: the distinct elements.  The script only looks at the
    result when it has exactly one element, so the order [set] happens to
    iterate in does not matter. *)
Definition distinct (xs : list string) : list string := remove_dups xs.

End Py.

(** ** The regular expressions of the script

    Each function is the behaviour of one [re] call of the script, with
    its pattern fixed. *)

Module Re.
Import Py.

(** the longest prefix of characters satisfying [p], and the rest *)
Fixpoint span (p : ascii -> bool) (s : string) : string * string :=
  match s with
  | EmptyString => (EmptyString, EmptyString)
  | String c s' =>
      if p c then let '(run, rest) := span p s' in (String c run, rest)
      else (EmptyString, s)
  end.

Definition is_word_or_space (c : ascii) : bool :=
  is_word_char c || Ascii.eqb c " ".

(** [re.search] for the pattern made of a quote, a group of any number
    of word characters and spaces, a quote, a comma and a space; the
    result is group 1 of the leftmost match.  The class does not contain
    the quote, so at a given start the group can only be the whole run of
    class characters. *)
Fixpoint search_quoted_group (s : string) : option string :=
  match s with
  | EmptyString => None
  | String c s' =>
      let here :=
        if Ascii.eqb c "'" then
          let '(run, rest) := span is_word_or_space s' in
          if startswith rest "', " then Some run else None
        else None in
      match here with
      | Some g => Some g
      | None => search_quoted_group s'
      end
  end.

(** [re.sub] deleting every match of a space followed by [\d] *)
Fixpoint sub_space_digit (s : string) : string :=
  match s with
  | String c1 (String c2 s' as t) =>
      if Ascii.eqb c1 " " && is_digit_char c2 then sub_space_digit s'
      else String c1 (sub_space_digit t)
  | _ => s
  end.

Definition is_group_char (c : ascii) : bool :=
  is_alpha_char c || Ascii.eqb c "_" || Ascii.eqb c "," || Ascii.eqb c " ".

(** the last character of a string *)
Fixpoint last_char (s : string) : option ascii :=
  match s with
  | EmptyString => None
  | String c EmptyString => Some c
  | String _ s' => last_char s'
  end.

(** whether [re.match] finds the pattern [ '[A-Za-z_, ]+ \.\.\.' ] at the
    start of [s].  The dot is
    not in the class, so the class run before the dots is maximal; the
    pattern needs it to end in the space before the dots, after at least
    one other class character. *)
Definition match_ellipsis_group (s : string) : bool :=
  match s with
  | String c s' =>
      Ascii.eqb c "'" &&
      let '(run, rest) := span is_group_char s' in
      (2 <=? String.length run)%nat &&
      match last_char run with
      | Some l => Ascii.eqb l " "
      | None => false
      end &&
      startswith rest "...'"
  | EmptyString => false
  end.

(** [re.findall] for [([\w]+)]: the maximal runs of word characters,
    from left to right. *)
Fixpoint findall_words_go (cur : string) (s : string) : list string :=
  match s with
  | EmptyString =>
      match cur with
      | EmptyString => []
      | _ => [String.rev cur]
      end
  | String c s' =>
      if is_word_char c then findall_words_go (String c cur) s'
      else match cur with
           | EmptyString => findall_words_go EmptyString s'
           | _ => String.rev cur :: findall_words_go EmptyString s'
           end
  end.
Definition findall_words (s : string) : list string :=
  findall_words_go EmptyString s.

(** [re.sub] deleting every [\d] *)
Definition sub_digits (s : string) : string :=
  filter_chars (fun c => negb (is_digit_char c)) s.

(** [re.sub] deleting every [[^\w]] *)
Definition sub_nonword (s : string) : string :=
  filter_chars is_word_char s.

(** the position after the last [>] of a string, if it has one *)
Fixpoint split_last_gt (s : string) : option (string * string) :=
  match s with
  | EmptyString => None
  | String c s' =>
      match split_last_gt s' with
      | Some (g, rest) => Some (String c g, rest)
      | None => if Ascii.eqb c ">" then Some (EmptyString, s') else None
      end
  end.

Definition not_newline (c : ascii) : bool := negb (Ascii.eqb c "010").

(** [re.sub] replacing [tmpl<G>], with [G] a greedy group of any
    characters of one line, by [const tmpl<G>&], for a literal [tmpl]: at the leftmost [tmpl<], the greedy group runs to the
    last [>] of the line; the search goes on after the match.  [fuel]
    bounds the number of characters looked at and is the length of the
    string. *)
Fixpoint sub_template_go (fuel : nat) (tmpl : string) (s : string) : string :=
  match fuel with
  | O => s
  | S fuel' =>
      match s with
      | EmptyString => EmptyString
      | String c s' =>
          let open := tmpl +:+ "<" in
          let skip := String c (sub_template_go fuel' tmpl s') in
          if startswith s open then
            let after := drop_chars (String.length open) s in
            let '(line, rest) := span not_newline after in
            match split_last_gt line with
            | Some (g, line_rest) =>
                ("const " +:+ open +:+ g +:+ ">&")
                +:+ sub_template_go (fuel' - String.length open - String.length g)
                      tmpl (line_rest +:+ rest)
            | None => skip
            end
          else skip
      end
  end.
Definition sub_template (tmpl s : string) : string :=
  sub_template_go (String.length s) tmpl s.

End Re.

(** ** The grammar document *)

(** An entry of [operand_kinds]. *)
Record operand_kind : Type := OperandKind {
  kind : string;
  category : string;
  bases : option (list string)
}.

(** An operand of an instruction. *)
Record operand : Type := Operand {
  op_kind : string;
  op_quantifier : option string;
  op_name : option string
}.

(** An entry of [instructions]. *)
Record instruction : Type := Instruction {
  opname : string;
  ins_operands : option (list operand)
}.

Record grammar : Type := Grammar {
  operand_kinds : list operand_kind;
  instructions : list instruction
}.

(** The dictionary [get_cpp_param] builds for one parameter. *)
Record cpp_param : Type := CppParam {
  param_type : string;
  param_name : string;
  default_value : string
}.

Definition set_name (p : cpp_param) (n : string) : cpp_param :=
  CppParam (param_type p) n (default_value p).
Definition set_default_value (p : cpp_param) (d : string) : cpp_param :=
  CppParam (param_type p) (param_name p) d.

(** ** The generator *)

Import Py.

Definition newline : string := String "010"%char EmptyString.

Definition reserved_cpp_keywords : list string :=
  ["asm"; "auto"; "break"; "case"; "catch"; "char"; "class"; "const";
   "continue"; "default"; "delete"; "do"; "double"; "else"; "enum";
   "extern"; "float"; "for"; "friend"; "goto"; "if"; "inline"; "int";
   "long"; "new"; "operator"; "private"; "protected"; "public"; "register";
   "return"; "short"; "signed"; "sizeof"; "static"; "struct"; "switch";
   "template"; "this"; "throw"; "try"; "typedef"; "union"; "unsigned";
   "virtual"; "void"; "volatile"; "while"].

Definition decapitalize (s : string) : string :=
  if isupper s then s else lower (head1 s) +:+ tail1 s.

Definition capitalize (s : string) : string :=
  upper (head1 s) +:+ tail1 s.

Definition literal_dict : gmap string string :=
  list_to_map
    [("LiteralInteger", "uint32_t");
     ("LiteralString", "std::string");
     ("LiteralFloat", "float");
     ("LiteralContextDependentNumber", "spvConstant auto");
     ("LiteralExtInstInteger", "uint32_t");
     ("LiteralSpecConstantOpInteger", "uint32_t")].

(** [d[k]] *)
Definition getitem {V} (d : gmap string V) (k : string) : result V :=
  match d !! k with
  | Some v => Ok v
  | None => Raise (KeyError k)
  end.

(** [dict(pairs)]: a later pair replaces an earlier one with the same key. *)
Definition dict {V} (pairs : list (string * V)) : gmap string V :=
  fold_left (fun d kv => <[kv.1 := kv.2]> d) pairs ∅.

(** [name in reserved_cpp_keywords] *)
Definition is_reserved (name : string) : bool :=
  bool_decide (name ∈ reserved_cpp_keywords).

Definition get_cpp_param_name (operand : operand) : result string :=
  match op_name operand with
  | None => Ok (decapitalize (op_kind operand))
  | Some name =>
      let* name :=
        (if contains newline name then
           match Re.search_quoted_group name with
           | None => Raise AttributeError
           | Some name => Ok (Re.sub_space_digit name +:+ "s")
           end
         else Ok name) in
      let name :=
        if Re.match_ellipsis_group name
        then join " " (Re.findall_words name) +:+ "s"
        else name in
      let* name :=
        (if contains "..." name then
           let name := Re.findall_words name in
           let temp_name := map Re.sub_digits name in
           let temp_name := map strip temp_name in
           let temp_name := distinct temp_name in
           match temp_name with
           | [temp_name0] => Ok (temp_name0 +:+ "s")
           | _ => Raise AssertionError
           end
         else Ok name) in
      let name := split_space name in
      let name := map capitalize name in
      let name := join "" name in
      let name := Re.sub_nonword name in
      let name := decapitalize name in
      let name := if is_reserved name then "_" +:+ name else name in
      Ok name
  end.

Definition is_simple_type (cpp_type : string) : bool :=
  if String.eqb cpp_type "std::string" || String.eqb cpp_type "spvConstant auto"
  then false
  else if startswith cpp_type "std::optional" then false
  else if startswith cpp_type "std::vector" then false
  else if startswith cpp_type "std::tuple" then false
  else true.

(** The two variables [get_word_count_code] builds its text from. *)
Definition word_count (cpp_params : list cpp_param) : nat :=
  1 + length (filter (fun t => is_simple_type t = true) (map param_type cpp_params)).

Definition non_simple_types_code (cpp_params : list cpp_param) : string :=
  let non_simple_types :=
    filter (fun x => negb (is_simple_type (param_type x)) = true) cpp_params in
  let non_simple_types := map param_name non_simple_types in
  let non_simple_types_code := join ", " non_simple_types in
  if (0 <? String.length non_simple_types_code)%nat
  then "countOperandsWord(wordCount," +:+ non_simple_types_code +:+ ");"
  else non_simple_types_code.

Definition get_word_count_code (cpp_params : list cpp_param) : string :=
  "uint16_t wordCount = " +:+ str_of_nat (word_count cpp_params) +:+ ";"
  +:+ newline +:+ "    " +:+ non_simple_types_code cpp_params.

Definition get_instruction_write_code (cpp_params : list cpp_param) : string :=
  let write_code := map param_name cpp_params in
  let write_code := join ", " write_code in
  "writeWords(" +:+ write_code +:+ ");".

(** [Counter(names)]: the number of occurrences of every name, iterated in
    the order in which the names first occur. *)
Fixpoint counter_add (c : list (string * nat)) (x : string) : list (string * nat) :=
  match c with
  | [] => [(x, 1)]
  | (k, n) :: c' =>
      if String.eqb k x then (k, S n) :: c' else (k, n) :: counter_add c' x
  end.
Definition Counter (names : list string) : list (string * nat) :=
  fold_left counter_add names [].

(** The inner loop of the renaming: the parameters called [param_name]
    get the numbers [param_nr], [param_nr + 1], ... appended. *)
Fixpoint rename_params (param_name0 : string) (param_nr : nat)
    (cpp_params : list cpp_param) : list cpp_param :=
  match cpp_params with
  | [] => []
  | cpp_param :: rest =>
      if String.eqb (param_name cpp_param) param_name0
      then set_name cpp_param (param_name0 +:+ str_of_nat param_nr)
             :: rename_params param_name0 (S param_nr) rest
      else cpp_param :: rename_params param_name0 param_nr rest
  end.

(** The body of the outer loop, for one item of the counter. *)
Definition rename_item (cpp_params : list cpp_param) (item : string * nat)
    : list cpp_param :=
  let '(param_name0, count) := item in
  if (count =? 1)%nat then cpp_params
  else rename_params param_name0 1 cpp_params.

(** The outer loop, over the items of the counter taken before any
    renaming; the parameters are renamed in place. *)
Definition dedup_names (cpp_params : list cpp_param) : list cpp_param :=
  let param_names_counter := Counter (map param_name cpp_params) in
  fold_left rename_item param_names_counter cpp_params.

Definition is_optional_or_vector (cpp_type : string) : bool :=
  startswith cpp_type "std::optional" || startswith cpp_type "std::vector".

(** The loop over [reversed(cpp_params)], on the reversed list. *)
Fixpoint assign_defaults_reversed (rev_params : list cpp_param) : list cpp_param :=
  match rev_params with
  | [] => []
  | instruction_operand :: rest =>
      if negb (is_optional_or_vector (param_type instruction_operand))
      then rev_params
      else set_default_value instruction_operand " = {}"
             :: assign_defaults_reversed rest
  end.
Definition assign_defaults (cpp_params : list cpp_param) : list cpp_param :=
  reverse (assign_defaults_reversed (reverse cpp_params)).

Definition get_param_def (function_param : cpp_param) : string :=
  let cpp_type := param_type function_param in
  let cpp_type :=
    if String.eqb cpp_type "std::string" then "const std::string&" else cpp_type in
  let cpp_type :=
    if startswith cpp_type "std::vector"
    then Re.sub_template "std::vector" cpp_type else cpp_type in
  let cpp_type :=
    if startswith cpp_type "std::tuple"
    then Re.sub_template "std::tuple" cpp_type else cpp_type in
  cpp_type +:+ " " +:+ param_name function_param +:+ default_value function_param.

(** [sorted(xs, key=key)] on string keys: the stable sort. *)
Fixpoint insert_sorted {A} (key : A -> string) (x : A) (xs : list A) : list A :=
  match xs with
  | [] => [x]
  | y :: ys =>
      if String.ltb (key y) (key x) then y :: insert_sorted key x ys
      else x :: xs
  end.
Definition sorted {A} (key : A -> string) (xs : list A) : list A :=
  foldr (insert_sorted key) [] xs.

Section Generator.

Variable spirv_grammar : grammar.

Definition operands : gmap string operand_kind :=
  dict (map (fun x => (kind x, x)) (operand_kinds spirv_grammar)).

Fixpoint get_base_cpp_type (depth : nat) (operand_kind : string) : result string :=
  match depth with
  | O => Raise RecursionError
  | S depth' =>
      let* operand_info := getitem operands operand_kind in
      let operand_category := category operand_info in
      if String.eqb operand_category "Id" then Ok operand_kind
      else if String.eqb operand_category "Literal" then
        getitem literal_dict operand_kind
      else if String.eqb operand_category "ValueEnum" then
        Ok ("spv::" +:+ operand_kind)
      else if String.eqb operand_category "BitEnum" then
        Ok ("spv::" +:+ operand_kind +:+ "Mask")
      else if String.eqb operand_category "Composite" then
        let* bases :=
          match bases operand_info with
          | Some bases => Ok bases
          | None => Raise (KeyError "bases")
          end in
        let* bases :=
          map_result
            (fun x =>
               let* x_info := getitem operands x in
               get_base_cpp_type depth' (kind x_info))
            bases in
        let bases := join ", " bases in
        Ok ("std::tuple<" +:+ bases +:+ ">")
      else
        Raise (NotImplementedError "Unexpected operand category" operand_category)
  end.

(** The recursion depth left when [get_cpp_type] is entered. *)
Variable recursion_limit : nat.

Definition get_cpp_type (operand : operand) : result string :=
  let operand_kind := op_kind operand in
  let* cpp_type := get_base_cpp_type recursion_limit operand_kind in
  match op_quantifier operand with
  | Some quantifier =>
      if String.eqb quantifier "?" then Ok ("std::optional<" +:+ cpp_type +:+ ">")
      else if String.eqb quantifier "*" then Ok ("std::vector<" +:+ cpp_type +:+ ">")
      else Raise (NotImplementedError "Unexpected operand quantifier" quantifier)
  | None => Ok cpp_type
  end.

Definition get_cpp_param (operand : operand) : result cpp_param :=
  let* type := get_cpp_type operand in
  let* name := get_cpp_param_name operand in
  Ok (CppParam type name "").

(** The parameter list of an instruction after the renaming of repeated
    names and the assignment of default values: [cpp_params] at the
    point where [get_instruction_code] starts to build text. *)
Definition instruction_params (instruction : instruction) : result (list cpp_param) :=
  let cpp_params :=
    match ins_operands instruction with
    | Some operands => operands
    | None => []
    end in
  let* cpp_params := map_result get_cpp_param cpp_params in
  let cpp_params := dedup_names cpp_params in
  let cpp_params := assign_defaults cpp_params in
  Ok cpp_params.

Definition get_instruction_code (instruction : instruction) : result string :=
  let* cpp_params := instruction_params instruction in
  let opname := opname instruction in
  let function_params := map get_param_def cpp_params in
  let function_params := join ("," +:+ newline) function_params in
  let function_params :=
    if (1 <? length cpp_params)%nat then newline +:+ function_params
    else function_params in
  Ok (newline +:+ "    void " +:+ opname +:+ "(" +:+ function_params +:+ ")"
      +:+ newline +:+ "    {"
      +:+ newline +:+ "    " +:+ get_word_count_code cpp_params
      +:+ newline
      +:+ newline +:+ "    writeWord(spv::Op::" +:+ opname +:+ ", wordCount);"
      +:+ newline +:+ "    " +:+ get_instruction_write_code cpp_params
      +:+ newline +:+ "    }").

Definition get_spv_ids_types : string :=
  let id_operands := operand_kinds spirv_grammar in
  let id_operands :=
    filter (fun x => String.eqb (category x) "Id" = true) id_operands in
  let id_operands := sorted kind id_operands in
  let id_operands :=
    map (fun x => "using " +:+ kind x +:+ " = spv::Id;") id_operands in
  join newline id_operands.

(** The text put in place of [#generated_code]. *)
Definition generated_code : result string :=
  let instructions := instructions spirv_grammar in
  let instructions := sorted opname instructions in
  let* instructions := map_result get_instruction_code instructions in
  Ok (join newline instructions).

End Generator.

(** ** What the specification says, in its own words

    The definitions of this module follow the specification and are only
    used to state properties of the generator. *)

Module Spec.

(** first letter decapitalized, kind name otherwise preserved verbatim *)
Definition decapitalize_first (s : string) : string :=
  match s with
  | EmptyString => EmptyString
  | String c rest => String (lower_char c) rest
  end.

(** an identifier: word characters only *)
Definition is_identifier (s : string) : bool := all_chars is_word_char s.

(** the escape of a reserved word *)
Definition escape_reserved (s : string) : string :=
  if is_reserved s then String "_"%char s else s.

(** The categories of the Type Resolver. *)
Definition known_categories : list string :=
  ["Id"; "Literal"; "ValueEnum"; "BitEnum"; "Composite"].

(** The three unmapped constructs of the error taxonomy, for an operand
    whose kind is in the catalog: a category outside the known ones, a
    quantifier marker that is neither [?] nor [*], a Literal kind that
    the literal table does not map. *)
Definition unmapped_category (g : grammar) (o : operand) : bool :=
  match operands g !! op_kind o with
  | Some info => negb (bool_decide (category info ∈ known_categories))
  | None => false
  end.
Definition unmapped_quantifier (o : operand) : bool :=
  match op_quantifier o with
  | Some q => negb (String.eqb q "?") && negb (String.eqb q "*")
  | None => false
  end.
Definition unmapped_literal (g : grammar) (o : operand) : bool :=
  match operands g !! op_kind o with
  | Some info =>
      String.eqb (category info) "Literal"
      && bool_decide (literal_dict !! op_kind o = None)
  | None => false
  end.
Definition unmapped (g : grammar) (o : operand) : bool :=
  unmapped_category g o || unmapped_quantifier o || unmapped_literal g o.

(** The kinds the Type Resolver has a type for: a kind of the catalog
    that is an Id, a ValueEnum, a BitEnum, a Literal of the literal
    table, or a Composite with a list of bases that are such kinds
    themselves. *)
#[warnings="-register-all"] Inductive resolvable (g : grammar) : string -> Prop :=
  | resolvable_scalar k info :
      operands g !! k = Some info ->
      category info ∈ ["Id"; "ValueEnum"; "BitEnum"] ->
      resolvable g k
  | resolvable_literal k info :
      operands g !! k = Some info ->
      category info = "Literal" ->
      is_Some (literal_dict !! k) ->
      resolvable g k
  | resolvable_composite k info bs :
      operands g !! k = Some info ->
      category info = "Composite" ->
      bases info = Some bs ->
      Forall (resolvable g) bs ->
      resolvable g k.

(** A parameter whose resolved type is a simple fixed-width scalar: no
    quantifier, and a kind that is an Id, a ValueEnum, a BitEnum, or a
    Literal other than the string and the context-dependent number. *)
Definition is_simple_operand (g : grammar) (o : operand) : bool :=
  match op_quantifier o with
  | Some _ => false
  | None =>
      match operands g !! op_kind o with
      | Some info =>
          bool_decide (category info ∈ ["Id"; "ValueEnum"; "BitEnum"])
          || (String.eqb (category info) "Literal"
              && negb (bool_decide
                         (op_kind o ∈ ["LiteralString"; "LiteralContextDependentNumber"])))
      | None => false
      end
  end.

(** A parameter whose resolved type is Optional or Sequence: the operand
    carries the marker [?] or [*]. *)
Definition is_optional_or_sequence (o : operand) : bool :=
  match op_quantifier o with
  | Some q => String.eqb q "?" || String.eqb q "*"
  | None => false
  end.

(** The generator tells the simple types from the others, and the optional
    and vector types from the others, by the text of the type.  The name
    of an Id kind is itself the text of a type; these two conditions say
    that no such name reads like one of the other types. *)
Definition id_kinds_read_simple (g : grammar) : Prop :=
  forall k info,
    operands g !! k = Some info -> category info = "Id" -> is_simple_type k = true.
Definition id_kinds_read_unwrapped (g : grammar) : Prop :=
  forall k info,
    operands g !! k = Some info -> category info = "Id" ->
    is_optional_or_vector k = false.

(** The operands of an instruction; none when the key is absent. *)
Definition operands_of (i : instruction) : list operand :=
  match ins_operands i with
  | Some ops => ops
  | None => []
  end.

End Spec.

(** The operand of some kind that carries the raw name [name]. *)
Definition named (name : string) : operand := Operand "IdRef" None (Some name).
(** The operand of kind [k] without a raw name. *)
Definition nameless (k : string) : operand := Operand k None None.

(** An instruction with two nameless Id operands, a named one and a
    repeated one at the end. *)
Definition ext_inst_instruction : instruction :=
  Instruction "OpExtInst"
    (Some [Operand "IdResultType" None None;
           Operand "IdResult" None None;
           Operand "IdRef" None (Some "'Set'");
           Operand "IdRef" (Some "*")
             (Some ("'Operand 1', +" +:+ newline +:+ "'Operand 2', +"
                    +:+ newline +:+ "..."))]).

(** The parameters the generator makes of it. *)
Definition ext_inst_params : list cpp_param :=
  [CppParam "IdResultType" "idResultType" "";
   CppParam "IdResult" "idResult" "";
   CppParam "IdRef" "set" "";
   CppParam "std::vector<IdRef>" "operands" " = {}"].

(** A small grammar used to instantiate the properties: two Id kinds, two
    Literal kinds, an enumeration, a bit mask and a Composite kind. *)
Definition example_grammar : grammar :=
  Grammar
    [OperandKind "IdResultType" "Id" None;
     OperandKind "IdResult" "Id" None;
     OperandKind "IdRef" "Id" None;
     OperandKind "LiteralInteger" "Literal" None;
     OperandKind "LiteralString" "Literal" None;
     OperandKind "Scope" "ValueEnum" None;
     OperandKind "MemoryAccess" "BitEnum" None;
     OperandKind "PairIdRefLiteralInteger" "Composite"
       (Some ["IdRef"; "LiteralInteger"])]
    [Instruction "OpNop" None;
     Instruction "OpName"
       (Some [Operand "IdRef" None (Some "'Target'");
              Operand "LiteralString" None (Some "'Name'")]);
     ext_inst_instruction].

(** A grammar with a Composite kind one of whose bases has a category the
    Type Resolver does not know. *)
Definition unknown_base_grammar : grammar :=
  Grammar
    [OperandKind "Pair" "Composite" (Some ["Odd"]);
     OperandKind "Odd" "Unknown" None]
    [].

(** A grammar with an Id kind whose name reads like a vector type. *)
Definition template_like_grammar : grammar :=
  Grammar [OperandKind "std::vectorId" "Id" None]
          [Instruction "OpOdd" (Some [Operand "std::vectorId" None None])].

(** An instruction of [example_grammar] with one string operand whose raw
    name has no word character. *)
Definition unnamed_string_instruction : instruction :=
  Instruction "OpString" (Some [Operand "LiteralString" None (Some "?")]).

(** An instruction whose operands are called [Operand], [Operand] and
    [Operand 1]. *)
Definition numbered_operands_instruction : instruction :=
  Instruction "OpNumbered"
    (Some [Operand "IdRef" None (Some "Operand");
           Operand "IdRef" None (Some "Operand");
           Operand "IdRef" None (Some "Operand 1")]).

(** A name that ends in a decimal digit. *)
Definition ends_in_digit (s : string) : bool :=
  match Re.last_char s with
  | Some c => is_digit_char c
  | None => false
  end.

(** During the renaming, with the items [todo] of the counter still to
    come: a name that will not be touched again, made of a name that is not
    a key of [todo] and does not end in a digit, and of digits after it. *)
Definition settled_name (todo : list (string * nat)) (x : string) : Prop :=
  exists k s,
    x = k +:+ s /\ all_chars is_digit_char s = true
    /\ (k ∉ todo.*1) /\ ends_in_digit k = false.

(** The names a renaming gives to [m] parameters called [k], counting
    from [nr]. *)
Definition fresh_names (k : string) (nr m : nat) : list string :=
  map (fun a => k +:+ str_of_nat a) (seq nr m).

(** The order of the keys of a sort, on the elements: at most, and
    strictly less, in the lexicographic order of the character codes. *)
Definition key_le {A} (key : A -> string) (x y : A) : Prop :=
  String.leb (key x) (key y) = true.
Definition key_lt {A} (key : A -> string) (x y : A) : Prop :=
  String.ltb (key x) (key y) = true.

(** The line of an alias. *)
Definition alias_line (x : operand_kind) : string :=
  "using " +:+ kind x +:+ " = spv::Id;".

(** Sufficient tests for the two conditions on the names of the Id kinds,
    on the entries of the grammar. *)
Definition check_id_kinds (test : string -> bool) (g : grammar) : bool :=
  forallb (fun x => negb (String.eqb (category x) "Id") || test (kind x))
    (operand_kinds g).

(** The parameter with the default value set, and the test of the loop
    that sets it. *)
Definition with_default (p : cpp_param) : cpp_param := set_default_value p " = {}".
Definition optional_or_vector_param (p : cpp_param) : bool :=
  is_optional_or_vector (param_type p).

(** One call of [get_base_cpp_type] after the lookup of the kind, used to
    reason about the function one level at a time. *)
Definition resolve_step (g : grammar) (depth' : nat) (k : string)
    (info : operand_kind) : result string :=
  if String.eqb (category info) "Id" then Ok k
  else if String.eqb (category info) "Literal" then getitem literal_dict k
  else if String.eqb (category info) "ValueEnum" then Ok ("spv::" +:+ k)
  else if String.eqb (category info) "BitEnum" then Ok ("spv::" +:+ k +:+ "Mask")
  else if String.eqb (category info) "Composite" then
    let* bs := match bases info with
               | Some bs => Ok bs
               | None => Raise (KeyError "bases")
               end in
    let* ts := map_result
                 (fun x => let* x_info := getitem (operands g) x in
                           get_base_cpp_type g depth' (kind x_info)) bs in
    Ok ("std::tuple<" +:+ join ", " ts +:+ ">")
  else Raise (NotImplementedError "Unexpected operand category" (category info)).

(** An instruction with a repeated operand name: the operands are called
    [Operand], [Operand] and [Target]. *)
Definition repeated_operands_instruction : instruction :=
  Instruction "OpRepeated"
    (Some [Operand "IdRef" None (Some "Operand");
           Operand "IdRef" None (Some "Operand");
           Operand "IdRef" None (Some "Target")]).

(** A name that is another name followed by decimal digits (none, when the
    two are equal). *)
Definition numbered_from (n m : string) : Prop :=
  exists s, all_chars is_digit_char s = true /\ m = n +:+ s.

(** The plain-name steps of [get_cpp_param_name], which every raw name
    goes through in the end: split on spaces, capitalize the pieces, join
    them, delete what is not a word character, decapitalize, escape. *)
Definition plain_name (name : string) : string :=
  Spec.escape_reserved
    (decapitalize (Re.sub_nonword (join "" (map capitalize (split_space name))))).

(** A grammar with a Composite kind whose second base is not in the
    catalog, and with a Composite kind that is its own base. *)
Definition broken_bases_grammar : grammar :=
  Grammar
    [OperandKind "IdRef" "Id" None;
     OperandKind "Triple" "Composite" (Some ["IdRef"; "Absent"; "Odd"]);
     OperandKind "Loop" "Composite" (Some ["IdRef"; "Loop"])]
    [].

(** A grammar that lists the kind [IdRef] twice, first as a Literal and
    then as an Id. *)
Definition repeated_kind_grammar : grammar :=
  Grammar
    [OperandKind "IdRef" "Literal" None;
     OperandKind "Scope" "ValueEnum" None;
     OperandKind "IdRef" "Id" None]
    [].

(** [s.replace(old, new)] for a non-empty [old]: the occurrences of [old]
    are replaced from left to right, and the search goes on after each
    one.  [skip] counts the characters of an occurrence still to pass. *)
Fixpoint replace_go (old new : string) (skip : nat) (s : string) : string :=
  match s with
  | EmptyString => EmptyString
  | String c s' =>
      match skip with
      | S skip' => replace_go old new skip' s'
      | O =>
          if startswith s old
          then new +:+ replace_go old new (String.length old - 1) s'
          else String c (replace_go old new 0 s')
      end
  end.
Definition replace (old new s : string) : string := replace_go old new 0 s.

(** The text the script writes to the output file.  The template is the
    content of a file that is not part of the sources; it is a parameter
    here. *)
Definition written_text (lib_core_content : string) (spirv_grammar : grammar)
    (recursion_limit : nat) : result string :=
  let* instructions := generated_code spirv_grammar recursion_limit in
  let lib_core_content :=
    replace "#generated_code" instructions lib_core_content in
  let lib_core_content :=
    replace "#generated_spv_id_types" (get_spv_ids_types spirv_grammar)
      lib_core_content in
  Ok (replace "#generated_code" instructions lib_core_content).

(** A character other than the one the two markers start with. *)
Definition not_hash (c : ascii) : bool := negb (Ascii.eqb c "#").

(** A grammar with one Id kind and one instruction without operands. *)
Definition nop_grammar : grammar :=
  Grammar [OperandKind "IdRef" "Id" None] [Instruction "OpNop" None].

(** A grammar with a Composite kind whose bases are both in the catalog,
    the second one a Literal kind without an entry in [literal_dict]. *)
Definition unmapped_literal_base_grammar : grammar :=
  Grammar
    [OperandKind "IdRef" "Id" None;
     OperandKind "LiteralOdd" "Literal" None;
     OperandKind "Pair" "Composite" (Some ["IdRef"; "LiteralOdd"])]
    [].

(** A grammar that lists the opname [OpA] twice, with different operands,
    and the Id kind [IdRef] twice; and the same grammar with the two
    instructions in the other order. *)
Definition repeated_opname_grammar : grammar :=
  Grammar
    [OperandKind "IdRef" "Id" None; OperandKind "IdRef" "Id" None]
    [Instruction "OpA" None;
     Instruction "OpA" (Some [Operand "IdRef" None None])].
Definition repeated_opname_grammar_swapped : grammar :=
  Grammar
    [OperandKind "IdRef" "Id" None; OperandKind "IdRef" "Id" None]
    [Instruction "OpA" (Some [Operand "IdRef" None None]);
     Instruction "OpA" None].

(** * Properties *)

(** Closed list membership, and the case analysis on a category. *)
Ltac in_list := by apply (bool_decide_unpack _).

Ltac case_category info :=
  repeat match goal with
    | |- context [String.eqb (category info) ?s] =>
        destruct (String.eqb_spec (category info) s)
    | H : context [String.eqb (category info) ?s] |- _ =>
        destruct (String.eqb_spec (category info) s)
    end.

(** ** Characters and strings *)

Section StringFacts.

Lemma append_cons (c : ascii) (s t : string) : String c s +:+ t = String c (s +:+ t).
Proof. done. Qed.

Lemma append_nil_r (s : string) : s +:+ "" = s.
Proof. induction s as [|c s IH]; [done|]. by rewrite append_cons, IH. Qed.

Lemma upper_char_word (c : ascii) :
  is_word_char (upper_char c) = is_word_char c.
Proof. by destruct c as [[] [] [] [] [] [] [] []]. Qed.

Lemma lower_char_upper_char (c : ascii) : lower_char (upper_char c) = lower_char c.
Proof. by destruct c as [[] [] [] [] [] [] [] []]. Qed.

Lemma all_chars_filter (p : ascii -> bool) (s : string) :
  all_chars p s = true -> filter_chars p s = s.
Proof.
  induction s as [|c s IH]; [done|]. cbn.
  intros [Hc Hs]%andb_prop. rewrite Hc. by rewrite IH.
Qed.

(** A string all of whose characters satisfy [p] contains no string that
    starts with a character outside [p]. *)
Lemma all_chars_contains (p : ascii -> bool) (d : ascii) (t s : string) :
  p d = false -> all_chars p s = true -> contains (String d t) s = false.
Proof.
  intros Hd. induction s as [|c s IH]; [done|]. cbn.
  intros [Hc Hs]%andb_prop.
  destruct (ascii_dec d c) as [->|]; [congruence|]. cbn. auto.
Qed.

Lemma split_space_no_space (s : string) :
  all_chars (fun c => negb (Ascii.eqb c " ")) s = true -> split_space s = [s].
Proof.
  induction s as [|c s IH]; [done|]. cbn.
  intros [Hc Hs]%andb_prop. apply negb_true_iff in Hc. rewrite Hc.
  by rewrite IH.
Qed.

Lemma all_chars_impl (p q : ascii -> bool) (s : string) :
  (forall c, p c = true -> q c = true) ->
  all_chars p s = true -> all_chars q s = true.
Proof.
  intros Hpq. induction s as [|c s IH]; [done|]. cbn.
  intros [Hc Hs]%andb_prop. by rewrite (Hpq _ Hc), IH.
Qed.

Lemma word_char_not_space (c : ascii) :
  is_word_char c = true -> negb (Ascii.eqb c " ") = true.
Proof. by destruct c as [[] [] [] [] [] [] [] []]. Qed.

Lemma capitalize_cons (c : ascii) (s : string) :
  capitalize (String c s) = String (upper_char c) s.
Proof. done. Qed.

Lemma lower_first_cons (c : ascii) (s : string) :
  lower (head1 (String c s)) +:+ tail1 (String c s) = String (lower_char c) s.
Proof. done. Qed.

Lemma capitalize_identifier (s : string) :
  Spec.is_identifier s = true -> Spec.is_identifier (capitalize s) = true.
Proof.
  destruct s as [|c s]; [done|]. rewrite capitalize_cons.
  unfold Spec.is_identifier. cbn. by rewrite upper_char_word.
Qed.

Lemma reserved_not_upper (s : string) : is_reserved s = true -> isupper s = false.
Proof.
  unfold is_reserved. intros Hs%bool_decide_eq_true.
  unfold reserved_cpp_keywords in Hs.
  repeat (apply elem_of_cons in Hs as [->|Hs]; [done|]).
  by apply elem_of_nil in Hs.
Qed.

End StringFacts.

(** ** The Name Deriver: [get_cpp_param_name] *)

Section NameDeriver.

Lemma word_char_not_quote (c : ascii) :
  is_word_char c = true -> Ascii.eqb c "'" = false.
Proof. by destruct c as [[] [] [] [] [] [] [] []]. Qed.

Lemma identifier_no_ellipsis_group (name : string) :
  Spec.is_identifier name = true -> Re.match_ellipsis_group name = false.
Proof.
  destruct name as [|c name]; [done|]. unfold Spec.is_identifier. cbn.
  intros [Hc _]%andb_prop. by rewrite (word_char_not_quote _ Hc).
Qed.

(** The nameless path returns the decapitalized kind name as it is. *)
Lemma nameless_path (k : string) (q : option string) :
  get_cpp_param_name (Operand k q None) = Ok (decapitalize k).
Proof. done. Qed.

(** On a raw name that is an identifier none of the three pattern
    families applies, and the plain path capitalizes, decapitalizes and
    escapes it. *)
Lemma plain_path (name k : string) (q : option string) :
  Spec.is_identifier name = true ->
  get_cpp_param_name (Operand k q (Some name))
  = Ok (Spec.escape_reserved (decapitalize (capitalize name))).
Proof.
  intros Hid. unfold get_cpp_param_name. cbn [op_name].
  unfold newline. rewrite (all_chars_contains is_word_char) by done.
  cbn [bind]. rewrite identifier_no_ellipsis_group by done.
  rewrite (all_chars_contains is_word_char) by done. cbn [bind].
  rewrite split_space_no_space
    by (eapply all_chars_impl; [apply word_char_not_space|done]).
  cbn [map]. unfold join. cbn [String.concat]. unfold Re.sub_nonword.
  rewrite all_chars_filter by (by apply capitalize_identifier).
  done.
Qed.

(** C5, as amended.  For an operand without a raw name the derived name is
    the kind name with its first letter decapitalized and the rest
    verbatim, unless the kind name is all upper case (no lower-case letter
    and at least one upper-case letter): then it is the kind name itself. *)
Theorem nameless_param_name (k : string) (q : option string) :
  get_cpp_param_name (Operand k q None)
  = Ok (if isupper k then k else Spec.decapitalize_first k).
Proof.
  rewrite nameless_path. unfold decapitalize.
  destruct (isupper k); [done|]. by destruct k.
Qed.

(** C5 as stated fails on an all upper-case kind name: the kind [ID]
    yields [ID], not [iD]; the kind [ScopeId] of the specification's
    example does yield [scopeId]. *)
Lemma nameless_param_name_upper_counterexample :
  get_cpp_param_name (nameless "ID") = Ok "ID"
  /\ Spec.decapitalize_first "ID" = "iD"
  /\ get_cpp_param_name (nameless "ID") <> Ok (Spec.decapitalize_first "ID")
  /\ get_cpp_param_name (nameless "ScopeId") = Ok "scopeId".
Proof. by repeat split. Qed.

(** C6: the code at the failing input.  The nameless path returns before
    the reserved-word test, so the kind [Class] yields the reserved word
    [class]; the same text as a raw name is escaped. *)
Theorem nameless_reserved_not_escaped :
  get_cpp_param_name (nameless "Class") = Ok "class"
  /\ is_reserved "class" = true
  /\ get_cpp_param_name (named "Class") = Ok "_class".
Proof. by repeat split. Qed.

(** An operand with a raw name that is an identifier does get the escape. *)
Lemma named_reserved_escaped (name k : string) (q : option string) :
  Spec.is_identifier name = true ->
  is_reserved (decapitalize (capitalize name)) = true ->
  get_cpp_param_name (Operand k q (Some name))
  = Ok (String "_"%char (decapitalize (capitalize name))).
Proof.
  intros Hid Hres. rewrite plain_path by done.
  unfold Spec.escape_reserved. by rewrite Hres.
Qed.

(** A raw name that is an identifier and is all upper case once its first
    letter is capitalized comes back with the first letter capitalized. *)
Lemma plain_path_upper (name k : string) (q : option string) :
  Spec.is_identifier name = true ->
  isupper (capitalize name) = true ->
  get_cpp_param_name (Operand k q (Some name)) = Ok (capitalize name).
Proof.
  intros Hid Hup. rewrite plain_path by done.
  unfold decapitalize. rewrite Hup. unfold Spec.escape_reserved.
  destruct (is_reserved (capitalize name)) eqn:Hres; [|done].
  apply reserved_not_upper in Hres. congruence.
Qed.

(** C9, as amended.  A raw name that is an identifier comes back with its
    first letter decapitalized and the rest unchanged, provided that the
    name with its first letter capitalized is not all upper case (it has a
    lower-case letter after the first character, or no letter at all) and
    that the decapitalized name is not a reserved word. *)
Theorem plain_identifier_param_name (name k : string) (q : option string) :
  Spec.is_identifier name = true ->
  isupper (capitalize name) = false ->
  is_reserved (Spec.decapitalize_first name) = false ->
  get_cpp_param_name (Operand k q (Some name))
  = Ok (Spec.decapitalize_first name).
Proof.
  intros Hid Hup Hres. rewrite plain_path by done.
  unfold decapitalize. rewrite Hup.
  assert (lower (head1 (capitalize name)) +:+ tail1 (capitalize name)
          = Spec.decapitalize_first name) as ->.
  { destruct name as [|c name]; [done|].
    rewrite capitalize_cons, lower_first_cons. cbn.
    by rewrite lower_char_upper_char. }
  unfold Spec.escape_reserved. by rewrite Hres.
Qed.

Lemma plain_identifier_param_name_witness :
  get_cpp_param_name (Operand "IdRef" None (Some "Target")) = Ok "target".
Proof. by apply (plain_identifier_param_name "Target" "IdRef" None). Defined.

(** C9 as stated fails: the identifiers [ID] and [x] are not reserved
    words, yet [ID] comes back unchanged and [x] comes back as [X]. *)
Lemma plain_identifier_counterexample :
  Spec.is_identifier "ID" = true /\ is_reserved "ID" = false
  /\ get_cpp_param_name (named "ID") = Ok "ID"
  /\ get_cpp_param_name (named "ID") <> Ok (Spec.decapitalize_first "ID")
  /\ Spec.is_identifier "x" = true /\ is_reserved "x" = false
  /\ get_cpp_param_name (named "x") = Ok "X"
  /\ get_cpp_param_name (named "x") <> Ok (Spec.decapitalize_first "x").
Proof. by repeat split. Qed.

End NameDeriver.

(** ** The Type Resolver: [get_base_cpp_type] and [get_cpp_type] *)

Section TypeResolver.

Variable g : grammar.

(** The catalog maps a kind name to an entry of that kind. *)
Lemma operands_kind (k : string) (info : operand_kind) :
  operands g !! k = Some info -> kind info = k.
Proof.
  unfold operands, dict.
  assert (forall (l : list operand_kind) (d : gmap string operand_kind),
    (forall k v, d !! k = Some v -> kind v = k) ->
    forall k v,
      fold_left (fun d kv => <[kv.1:=kv.2]> d) (map (fun x => (kind x, x)) l) d !! k
      = Some v -> kind v = k) as Hfold.
  { induction l as [|x l IH]; intros d Hd k' v; [by apply Hd|].
    cbn. apply IH. intros k'' v'. rewrite lookup_insert.
    case_decide; [intros [= <-]; by subst|by apply Hd]. }
  apply Hfold. intros k' v. by rewrite lookup_empty.
Qed.

Lemma map_result_ok {A B} (f : A -> result B) (xs : list A) (ys : list B) :
  map_result f xs = Ok ys <-> Forall2 (fun x y => f x = Ok y) xs ys.
Proof.
  revert ys. induction xs as [|x xs IH]; intros ys; cbn.
  - split; [intros [= <-]; constructor|by intros ->%Forall2_nil_inv_l].
  - split.
    + destruct (f x) as [y|e] eqn:Hx; [|done]. cbn.
      destruct (map_result f xs) as [ys'|e] eqn:Hxs; [|done]. cbn.
      intros [= <-]. constructor; [done|by apply IH].
    + intros (y & ys' & Hy & Hys & ->)%Forall2_cons_inv_l.
      rewrite Hy. cbn. apply IH in Hys. by rewrite Hys.
Qed.

Lemma map_result_ext_in {X Y} (f f' : X -> result Y) (xs : list X) :
  Forall (fun x => f x = f' x) xs -> map_result f xs = map_result f' xs.
Proof. induction 1 as [|x xs Hx _ IH]; [done|]. cbn. by rewrite Hx, IH. Qed.

Lemma map_result_ext {X Y} (f f' : X -> result Y) (xs : list X) :
  (forall x, f x = f' x) -> map_result f xs = map_result f' xs.
Proof. intros Hf. apply map_result_ext_in. by apply Forall_forall. Qed.

Lemma result_ok_or_raise {A} (r : result A) : is_ok r \/ is_raise r.
Proof. destruct r; [left|right]; by eexists. Qed.

Lemma result_not_ok_raise {A} (r : result A) : ~ is_ok r -> is_raise r.
Proof. destruct (result_ok_or_raise r); tauto. Qed.

Lemma get_base_cpp_type_S (depth' : nat) (k : string) :
  get_base_cpp_type g (S depth') k
  = let* info := getitem (operands g) k in resolve_step g depth' k info.
Proof. done. Qed.

Lemma get_base_cpp_type_lookup (depth : nat) (k t : string) :
  get_base_cpp_type g depth k = Ok t -> is_Some (operands g !! k).
Proof.
  destruct depth as [|depth']; [done|]. rewrite get_base_cpp_type_S.
  unfold getitem. by destruct (operands g !! k).
Qed.

(** The function the bases of a Composite kind are mapped with resolves
    the base itself. *)
Lemma resolve_base_eq (depth : nat) (x : string) :
  (let* x_info := getitem (operands g) x in
   get_base_cpp_type g depth (kind x_info))
  = match operands g !! x with
    | Some _ => get_base_cpp_type g depth x
    | None => Raise (KeyError x)
    end.
Proof.
  unfold getitem. destruct (operands g !! x) as [info|] eqn:Hx; [|done].
  cbn. by rewrite (operands_kind _ _ Hx).
Qed.

Lemma resolve_base_ok (depth : nat) (x t : string) :
  (let* x_info := getitem (operands g) x in
   get_base_cpp_type g depth (kind x_info)) = Ok t
  <-> get_base_cpp_type g depth x = Ok t.
Proof.
  rewrite resolve_base_eq. split.
  - by destruct (operands g !! x).
  - intros Hx. destruct (get_base_cpp_type_lookup _ _ _ Hx) as [info ->]. done.
Qed.

(** More recursion depth does not change a result. *)
Lemma get_base_cpp_type_mono (d d' : nat) (k t : string) :
  get_base_cpp_type g d k = Ok t -> d <= d' -> get_base_cpp_type g d' k = Ok t.
Proof.
  revert d' k t. induction d as [|d IH]; intros d' k t Hk Hle; [done|].
  destruct d' as [|d']; [lia|]. rewrite get_base_cpp_type_S in *.
  destruct (getitem (operands g) k) as [info|e]; [|done]. cbn in *.
  unfold resolve_step in *.
  repeat (destruct (String.eqb (category info) _); [done|]).
  destruct (String.eqb (category info) "Composite"); [|done].
  destruct (bases info) as [bs|]; [|done]. cbn in *.
  destruct (map_result _ bs) as [ts|e] eqn:Hts in Hk; [|done].
  cbn in Hk. injection Hk as <-.
  assert (map_result
            (fun x => let* x_info := getitem (operands g) x in
                      get_base_cpp_type g d' (kind x_info)) bs = Ok ts) as ->; [|done].
  apply map_result_ok. apply map_result_ok in Hts.
  eapply Forall2_impl; [done|]. intros x y Hx. cbn in Hx.
  apply resolve_base_ok. apply resolve_base_ok in Hx. apply IH; [done|lia].
Qed.

(** Induction on [Spec.resolvable] with the induction hypothesis for the
    bases of a Composite kind. *)
Lemma resolvable_induction (P : string -> Prop) :
  (forall k info,
      operands g !! k = Some info ->
      category info ∈ ["Id"; "ValueEnum"; "BitEnum"] -> P k) ->
  (forall k info,
      operands g !! k = Some info ->
      category info = "Literal" -> is_Some (literal_dict !! k) -> P k) ->
  (forall k info bs,
      operands g !! k = Some info ->
      category info = "Composite" -> bases info = Some bs ->
      Forall (Spec.resolvable g) bs -> Forall P bs -> P k) ->
  forall k, Spec.resolvable g k -> P k.
Proof.
  intros Hscalar Hliteral Hcomposite.
  fix IH 2. intros k [k' info Hk Hcat|k' info Hk Hcat Hlit|k' info bs Hk Hcat Hbs Hall].
  - by eapply Hscalar.
  - by eapply Hliteral.
  - eapply Hcomposite; [done..|]. clear Hbs.
    induction Hall as [|b bs' Hb _ IHall]; constructor; [by apply IH|done].
Qed.

(** Bases that resolve one by one resolve together at some depth. *)
Lemma resolve_common_depth (bs ts : list string) :
  Forall2 (fun b t => exists d, get_base_cpp_type g d b = Ok t) bs ts ->
  exists d, Forall2 (fun b t => get_base_cpp_type g d b = Ok t) bs ts.
Proof.
  induction 1 as [|b t bs ts [d1 Hb] _ [d2 IH]]; [exists 0; constructor|].
  exists (d1 `max` d2). constructor.
  - eapply get_base_cpp_type_mono; [done|lia].
  - eapply Forall2_impl; [done|]. intros x y Hx. cbn in Hx.
    eapply get_base_cpp_type_mono; [exact Hx|lia].
Qed.

(** A Composite kind whose bases resolve at depth [d] resolves at depth
    [S d], to the tuple of the types of its bases. *)
Lemma composite_resolves_at (d : nat) (k : string) (info : operand_kind)
    (bs ts : list string) :
  operands g !! k = Some info ->
  category info = "Composite" ->
  bases info = Some bs ->
  Forall2 (fun b t => get_base_cpp_type g d b = Ok t) bs ts ->
  get_base_cpp_type g (S d) k = Ok ("std::tuple<" +:+ join ", " ts +:+ ">").
Proof.
  intros Hk Hcat Hbs Hts. rewrite get_base_cpp_type_S. unfold getitem.
  rewrite Hk. cbn [bind]. unfold resolve_step. rewrite Hcat, Hbs. cbn [String.eqb Ascii.eqb Bool.eqb bind].
  assert (map_result
            (fun x => let* x_info := getitem (operands g) x in
                      get_base_cpp_type g d (kind x_info)) bs = Ok ts) as ->; [|done].
  apply map_result_ok. eapply Forall2_impl; [done|].
  intros b t Hb. by apply resolve_base_ok.
Qed.

(** A Composite kind of the catalog whose bases are in the catalog resolves
    as the tuple of its bases does: the bases are resolved in the declared
    order, and the first exception, if any, is the result. *)
Lemma composite_resolves_as_bases (d : nat) (k : string) (info : operand_kind)
    (bs : list string) :
  operands g !! k = Some info ->
  category info = "Composite" ->
  bases info = Some bs ->
  Forall (fun b => is_Some (operands g !! b)) bs ->
  get_base_cpp_type g (S d) k
  = (let* ts := map_result (get_base_cpp_type g d) bs in
     Ok ("std::tuple<" +:+ join ", " ts +:+ ">")).
Proof.
  intros Hk Hcat Hbs Hin. rewrite get_base_cpp_type_S. unfold getitem at 1.
  rewrite Hk. cbn [bind]. unfold resolve_step. rewrite Hcat, Hbs.
  cbn [String.eqb Ascii.eqb Bool.eqb bind].
  rewrite (map_result_ext_in _ (get_base_cpp_type g d) bs); [done|].
  eapply Forall_impl; [done|]. intros b [info' Hb]. cbn.
  by rewrite resolve_base_eq, Hb.
Qed.

(** C4, as amended.  A Composite kind whose base kinds are all in the
    catalog resolves to a tuple type exactly when its bases resolve.  At every
    depth the result is the tuple of the results of the bases, in the
    declared order, and an exception of a base is the result; when the
    bases resolve, to the types [ts], enough recursion depth gives the tuple
    type over [ts], at every larger depth too; and a type is only returned
    when every base resolves, and is then the tuple type over their
    types. *)
Theorem composite_resolves_to_tuple (k : string) (info : operand_kind)
    (bs : list string) :
  operands g !! k = Some info ->
  category info = "Composite" ->
  bases info = Some bs ->
  Forall (fun b => is_Some (operands g !! b)) bs ->
  (forall d,
      get_base_cpp_type g (S d) k
      = (let* ts := map_result (get_base_cpp_type g d) bs in
         Ok ("std::tuple<" +:+ join ", " ts +:+ ">")))
  /\ (forall ts,
      Forall2 (fun b t => exists d, get_base_cpp_type g d b = Ok t) bs ts ->
      exists d, forall d', d <= d' ->
        get_base_cpp_type g d' k = Ok ("std::tuple<" +:+ join ", " ts +:+ ">"))
  /\ (forall d t,
      get_base_cpp_type g d k = Ok t ->
      exists ts,
        Forall2 (fun b t' => exists d', get_base_cpp_type g d' b = Ok t') bs ts
        /\ t = "std::tuple<" +:+ join ", " ts +:+ ">").
Proof.
  intros Hk Hcat Hbs Hin. split; [|split].
  - intros d. by apply (composite_resolves_as_bases d k info bs).
  - intros ts [d Hts]%resolve_common_depth.
    exists (S d). intros d' Hle.
    eapply get_base_cpp_type_mono; [|done].
    by eapply composite_resolves_at.
  - intros [|d] t; [done|].
    rewrite (composite_resolves_as_bases d k info bs) by done.
    destruct (map_result (get_base_cpp_type g d) bs) as [ts|e] eqn:Hts; [|done].
    cbn [bind]. intros [= <-]. exists ts. split; [|done].
    apply map_result_ok in Hts.
    eapply Forall2_impl; [exact Hts|]. intros b t' Hb. by exists d.
Qed.

(** The instance of the specification: bases [A, B] that resolve to [T1]
    and [T2] give the tuple over [T1, T2], in that order. *)
Lemma composite_pair_resolves (k a b t1 t2 : string) (info : operand_kind)
    (d1 d2 : nat) :
  operands g !! k = Some info ->
  category info = "Composite" ->
  bases info = Some [a; b] ->
  get_base_cpp_type g d1 a = Ok t1 ->
  get_base_cpp_type g d2 b = Ok t2 ->
  get_base_cpp_type g (S (d1 `max` d2)) k
  = Ok ("std::tuple<" +:+ (t1 +:+ ", " +:+ t2) +:+ ">").
Proof.
  intros Hk Hcat Hbs Ha Hb.
  rewrite (composite_resolves_at (d1 `max` d2) k info [a; b] [t1; t2]); [done..|].
  repeat constructor; (eapply get_base_cpp_type_mono; [done|lia]).
Qed.

(** *** Which operands raise *)

Lemma resolve_step_unknown_category (d : nat) (k : string) (info : operand_kind) :
  category info ∉ Spec.known_categories ->
  resolve_step g d k info
  = Raise (NotImplementedError "Unexpected operand category" (category info)).
Proof.
  intros Hcat. unfold resolve_step. case_category info; try done;
    exfalso; apply Hcat; unfold Spec.known_categories;
    match goal with H : category info = _ |- _ => rewrite H end; in_list.
Qed.

Lemma resolve_step_literal (d : nat) (k : string) (info : operand_kind) :
  category info = "Literal" -> resolve_step g d k info = getitem literal_dict k.
Proof. intros Hcat. unfold resolve_step. by rewrite Hcat. Qed.

(** A result of [get_base_cpp_type] is the type of a resolvable kind. *)
Lemma get_base_cpp_type_resolvable (d : nat) (k t : string) :
  get_base_cpp_type g d k = Ok t -> Spec.resolvable g k.
Proof.
  revert k t. induction d as [|d IH]; intros k t Hk; [done|].
  rewrite get_base_cpp_type_S in Hk. unfold getitem in Hk.
  destruct (operands g !! k) as [info|] eqn:Hinfo; [|done]. cbn [bind] in Hk.
  unfold resolve_step in Hk. case_category info; try done.
  - eapply Spec.resolvable_scalar; [done|].
    match goal with H : category info = _ |- _ => rewrite H end. in_list.
  - eapply Spec.resolvable_literal; [done..|].
    unfold getitem in Hk. by destruct (literal_dict !! k).
  - eapply Spec.resolvable_scalar; [done|].
    match goal with H : category info = _ |- _ => rewrite H end. in_list.
  - eapply Spec.resolvable_scalar; [done|].
    match goal with H : category info = _ |- _ => rewrite H end. in_list.
  - destruct (bases info) as [bs|] eqn:Hbs; [|done]. cbn [bind] in Hk.
    destruct (map_result _ bs) as [ts|] eqn:Hts; [|done].
    eapply Spec.resolvable_composite; [done..|].
    apply map_result_ok in Hts.
    eapply Forall2_Forall_l; [done|].
    apply Forall_forall. intros t' _ b Hb%resolve_base_ok. by eapply IH.
Qed.

(** A resolvable kind has a type, given enough recursion depth. *)
Lemma resolvable_get_base_cpp_type (k : string) :
  Spec.resolvable g k -> exists d t, get_base_cpp_type g d k = Ok t.
Proof.
  revert k. apply resolvable_induction;
    [intros k info Hk Hcat|intros k info Hk Hcat [t Ht]|intros k info bs Hk Hcat Hbs _ IH].
  - exists 1. rewrite get_base_cpp_type_S. unfold getitem. rewrite Hk. cbn [bind].
    unfold resolve_step.
    repeat (apply elem_of_cons in Hcat as [->|Hcat]; [by eexists|]).
    by apply elem_of_nil in Hcat.
  - exists 1, t. rewrite get_base_cpp_type_S. unfold getitem at 1. rewrite Hk. cbn [bind].
    rewrite resolve_step_literal by done. unfold getitem. by rewrite Ht.
  - assert (exists ts, Forall2 (fun b t => exists d, get_base_cpp_type g d b = Ok t) bs ts)
      as [ts Hts].
    { clear Hbs. induction IH as [|b bs (d & t & Hb) _ [ts IH']]; [by exists []|].
      exists (t :: ts). constructor; [by exists d|done]. }
    apply resolve_common_depth in Hts as [d Hts].
    exists (S d). eexists. by eapply composite_resolves_at.
Qed.

Lemma get_cpp_type_ok (d : nat) (o : operand) :
  is_ok (get_cpp_type g d o)
  <-> is_ok (get_base_cpp_type g d (op_kind o)) /\ Spec.unmapped_quantifier o = false.
Proof.
  unfold get_cpp_type, Spec.unmapped_quantifier.
  destruct (get_base_cpp_type g d (op_kind o)) as [t|e]; cbn [bind].
  - destruct (op_quantifier o) as [q|]; [|split; [by split; eexists|by eexists]].
    destruct (String.eqb q "?"); [split; [by split; eexists|by eexists]|].
    destruct (String.eqb q "*"); [split; [by split; eexists|by eexists]|].
    split; [by intros [? ?]|by intros [_ ?]].
  - split; [by intros [? ?]|by intros [[? ?] _]].
Qed.

(** The exceptions of the three unmapped constructs. *)
Lemma unmapped_category_raises (d : nat) (o : operand) (info : operand_kind) :
  operands g !! op_kind o = Some info ->
  category info ∉ Spec.known_categories ->
  get_cpp_type g (S d) o
  = Raise (NotImplementedError "Unexpected operand category" (category info)).
Proof.
  intros Hk Hcat. unfold get_cpp_type. rewrite get_base_cpp_type_S.
  unfold getitem. rewrite Hk. cbn [bind].
  by rewrite resolve_step_unknown_category.
Qed.

Lemma unmapped_literal_raises (d : nat) (o : operand) (info : operand_kind) :
  operands g !! op_kind o = Some info ->
  category info = "Literal" ->
  literal_dict !! op_kind o = None ->
  get_cpp_type g (S d) o = Raise (KeyError (op_kind o)).
Proof.
  intros Hk Hcat Hlit. unfold get_cpp_type. rewrite get_base_cpp_type_S.
  unfold getitem at 1. rewrite Hk. cbn [bind].
  rewrite resolve_step_literal by done. unfold getitem. by rewrite Hlit.
Qed.

Lemma unmapped_quantifier_raises (d : nat) (o : operand) (q t : string) :
  op_quantifier o = Some q -> q <> "?" -> q <> "*" ->
  get_base_cpp_type g d (op_kind o) = Ok t ->
  get_cpp_type g d o
  = Raise (NotImplementedError "Unexpected operand quantifier" q).
Proof.
  intros Hq H1 H2 Ht. unfold get_cpp_type. rewrite Ht, Hq. cbn [bind].
  by destruct (String.eqb_spec q "?"), (String.eqb_spec q "*").
Qed.

Lemma resolvable_inv (k : string) :
  Spec.resolvable g k ->
  exists info, operands g !! k = Some info /\
    (category info ∈ ["Id"; "ValueEnum"; "BitEnum"]
     \/ (category info = "Literal" /\ is_Some (literal_dict !! k))
     \/ (category info = "Composite" /\
         exists bs, bases info = Some bs /\ Forall (Spec.resolvable g) bs)).
Proof. destruct 1; eauto 10. Qed.

Lemma unmapped_not_resolvable (o : operand) :
  Spec.unmapped g o = true ->
  ~ (Spec.resolvable g (op_kind o) /\ Spec.unmapped_quantifier o = false).
Proof.
  unfold Spec.unmapped, Spec.unmapped_category, Spec.unmapped_literal.
  intros Hun [(info & Hk & Hres)%resolvable_inv Hq].
  rewrite Hq, orb_false_r, Hk in Hun.
  apply orb_prop in Hun as [Hun|Hun].
  - apply negb_true_iff, bool_decide_eq_false in Hun.
    apply Hun. unfold Spec.known_categories.
    destruct Hres as [Hcat|[[Hcat _]|[Hcat _]]]; [|rewrite Hcat; in_list..].
    repeat (apply elem_of_cons in Hcat as [->|Hcat]; [in_list|]).
    by apply elem_of_nil in Hcat.
  - apply andb_prop in Hun as [Hcat%String.eqb_eq Hlit%bool_decide_eq_true].
    destruct Hres as [Hcat'|[[_ [t Ht]]|[Hcat' _]]].
    + rewrite Hcat in Hcat'.
      repeat (apply elem_of_cons in Hcat' as [?|Hcat']; [done|]).
      by apply elem_of_nil in Hcat'.
    + congruence.
    + congruence.
Qed.

(** C7, as amended.  Type resolution of an operand raises, whatever the
    recursion depth, whenever the operand shows one of the three unmapped
    constructs.  An operand without them whose kind is in the catalog and
    is not Composite raises nothing.  In general type resolution succeeds
    (given enough depth) exactly for a resolvable kind with a known
    quantifier: for a Composite kind the bases count as well. *)
Theorem get_cpp_type_raises (o : operand) :
  (Spec.unmapped g o = true -> forall d, is_raise (get_cpp_type g d o))
  /\ (Spec.unmapped g o = false ->
      forall info, operands g !! op_kind o = Some info ->
      category info <> "Composite" ->
      forall d, is_ok (get_cpp_type g (S d) o))
  /\ ((exists d, is_ok (get_cpp_type g d o))
      <-> Spec.resolvable g (op_kind o) /\ Spec.unmapped_quantifier o = false).
Proof.
  assert ((exists d, is_ok (get_cpp_type g d o))
      <-> Spec.resolvable g (op_kind o) /\ Spec.unmapped_quantifier o = false) as Hiff.
  { split.
    - intros [d [[t Ht] Hq]%get_cpp_type_ok]. split; [|done].
      by eapply get_base_cpp_type_resolvable.
    - intros [(d & t & Ht)%resolvable_get_base_cpp_type Hq].
      exists d. apply get_cpp_type_ok. split; [by exists t|done]. }
  split; [|split; [|done]].
  - intros Hun d. apply result_not_ok_raise. intros Hok.
    apply (unmapped_not_resolvable o Hun). apply Hiff. by exists d.
  - intros Hun info Hk Hcomp d. apply get_cpp_type_ok.
    unfold Spec.unmapped in Hun.
    apply orb_false_elim in Hun as [[Hcat Hq]%orb_false_elim Hlit]. split; [|done].
    unfold Spec.unmapped_category, Spec.unmapped_literal in *. rewrite Hk in *.
    apply negb_false_iff, bool_decide_eq_true in Hcat.
    rewrite get_base_cpp_type_S. unfold getitem at 1. rewrite Hk. cbn [bind].
    unfold Spec.known_categories in Hcat.
    apply elem_of_cons in Hcat as [Hcat|Hcat];
      [unfold resolve_step; rewrite Hcat; by eexists|].
    apply elem_of_cons in Hcat as [Hcat|Hcat].
    { rewrite resolve_step_literal by done. rewrite Hcat in Hlit.
      apply bool_decide_eq_false in Hlit. unfold getitem.
      destruct (literal_dict !! op_kind o); [by eexists|done]. }
    repeat (apply elem_of_cons in Hcat as [Hcat|Hcat];
            [try done; unfold resolve_step; rewrite Hcat; by eexists|]).
    by apply elem_of_nil in Hcat.
Qed.

End TypeResolver.

Lemma composite_resolves_to_tuple_witness :
  get_base_cpp_type example_grammar 2 "PairIdRefLiteralInteger"
  = Ok "std::tuple<IdRef, uint32_t>"
  /\ exists d, forall d', d <= d' ->
       get_base_cpp_type example_grammar d' "PairIdRefLiteralInteger"
       = Ok "std::tuple<IdRef, uint32_t>".
Proof.
  destruct (composite_resolves_to_tuple example_grammar "PairIdRefLiteralInteger"
              (OperandKind "PairIdRefLiteralInteger" "Composite"
                 (Some ["IdRef"; "LiteralInteger"]))
              ["IdRef"; "LiteralInteger"]) as (Hstep & Htuple & _).
  - reflexivity.
  - reflexivity.
  - reflexivity.
  - repeat constructor; eexists; reflexivity.
  - split; [exact (Hstep 1)|].
    apply (Htuple ["IdRef"; "uint32_t"]).
    repeat constructor; exists 1; reflexivity.
Defined.

Lemma get_cpp_type_raises_witness :
  is_raise (get_cpp_type example_grammar 3 (Operand "IdRef" (Some "+") None))
  /\ is_ok (get_cpp_type example_grammar 1 (Operand "IdRef" (Some "*") None)).
Proof.
  split.
  - apply (proj1 (get_cpp_type_raises example_grammar
                    (Operand "IdRef" (Some "+") None))).
    reflexivity.
  - apply (proj1 (proj2 (get_cpp_type_raises example_grammar
                           (Operand "IdRef" (Some "*") None)))
             eq_refl (OperandKind "IdRef" "Id" None)).
    + reflexivity.
    + discriminate.
Defined.

(** C4 as stated fails when a base is in the catalog and does not
    resolve: both bases of [Pair] are in the catalog, the second one is a
    Literal kind without a mapped type, and the resolution of [Pair] returns
    no tuple type at any depth; it raises, with the [KeyError] of the base
    once the depth reaches it. *)
Lemma composite_unmapped_base_counterexample :
  operands unmapped_literal_base_grammar !! "Pair"
  = Some (OperandKind "Pair" "Composite" (Some ["IdRef"; "LiteralOdd"]))
  /\ Forall (fun b => is_Some (operands unmapped_literal_base_grammar !! b))
       ["IdRef"; "LiteralOdd"]
  /\ (forall d, is_raise (get_base_cpp_type unmapped_literal_base_grammar d "Pair"))
  /\ get_base_cpp_type unmapped_literal_base_grammar 2 "Pair"
     = Raise (KeyError "LiteralOdd").
Proof.
  split; [reflexivity|]. split; [repeat constructor; eexists; reflexivity|].
  split; [|reflexivity].
  intros [|[|d]]; eexists; reflexivity.
Qed.

(** C7 as stated fails on a Composite kind: the operand of kind [Pair]
    shows none of the three unmapped constructs, yet its type resolution
    raises at every depth, and, once the depth reaches the base, with the
    unknown category of the base. *)
Lemma composite_base_counterexample :
  Spec.unmapped unknown_base_grammar (nameless "Pair") = false
  /\ (forall d, is_raise (get_cpp_type unknown_base_grammar d (nameless "Pair")))
  /\ get_cpp_type unknown_base_grammar 2 (nameless "Pair")
     = Raise (NotImplementedError "Unexpected operand category" "Unknown").
Proof.
  split; [reflexivity|]. split; [|reflexivity].
  intros [|[|d]]; eexists; reflexivity.
Qed.

(** ** The Instruction Emitter *)

Section Emitter.

Variable g : grammar.
Variable d : nat.

(** *** The passes keep what they do not set *)

Lemma rename_params_types (n : string) (nr : nat) (ps : list cpp_param) :
  map param_type (rename_params n nr ps) = map param_type ps.
Proof.
  revert nr. induction ps as [|p ps IH]; intros nr; [done|]. cbn.
  destruct (String.eqb (param_name p) n); cbn; by rewrite IH.
Qed.

Lemma rename_params_defaults (n : string) (nr : nat) (ps : list cpp_param) :
  map default_value (rename_params n nr ps) = map default_value ps.
Proof.
  revert nr. induction ps as [|p ps IH]; intros nr; [done|]. cbn.
  destruct (String.eqb (param_name p) n); cbn; by rewrite IH.
Qed.

Lemma dedup_names_types (ps : list cpp_param) :
  map param_type (dedup_names ps) = map param_type ps.
Proof.
  unfold dedup_names. generalize (Counter (map param_name ps)).
  intros c. revert ps. induction c as [|[n count] c IH]; intros ps; [done|].
  cbn. rewrite IH. destruct (count =? 1); [done|apply rename_params_types].
Qed.

Lemma dedup_names_defaults (ps : list cpp_param) :
  map default_value (dedup_names ps) = map default_value ps.
Proof.
  unfold dedup_names. generalize (Counter (map param_name ps)).
  intros c. revert ps. induction c as [|[n count] c IH]; intros ps; [done|].
  cbn. rewrite IH. destruct (count =? 1); [done|apply rename_params_defaults].
Qed.

(** *** The default values *)

Lemma assign_defaults_reversed_all (ps : list cpp_param) :
  forallb optional_or_vector_param ps = true ->
  assign_defaults_reversed ps = map with_default ps.
Proof.
  induction ps as [|p ps IH]; [done|]. cbn.
  intros [Hp Hps]%andb_prop. unfold optional_or_vector_param in Hp.
  rewrite Hp. cbn. by rewrite IH.
Qed.

Lemma assign_defaults_reversed_snoc (ps : list cpp_param) (p : cpp_param) :
  assign_defaults_reversed (ps ++ [p])
  = if forallb optional_or_vector_param ps
    then map with_default ps
           ++ [if optional_or_vector_param p then with_default p else p]
    else assign_defaults_reversed ps ++ [p].
Proof.
  induction ps as [|q ps IH]; cbn.
  - unfold optional_or_vector_param. by destruct (is_optional_or_vector _).
  - unfold optional_or_vector_param at 1.
    destruct (is_optional_or_vector (param_type q)); cbn; [|done].
    rewrite IH. by destruct (forallb _ ps).
Qed.

Lemma forallb_reverse {A} (f : A -> bool) (l : list A) :
  forallb f (reverse l) = forallb f l.
Proof.
  induction l as [|x l IH]; [done|]. rewrite reverse_cons, forallb_app. cbn.
  rewrite IH. by destruct (f x), (forallb f l).
Qed.

(** The loop from the last parameter to the first, read from the first:
    a parameter gets the default value exactly when it and every later
    parameter has an optional or vector type. *)
Lemma assign_defaults_cons (p : cpp_param) (ps : list cpp_param) :
  assign_defaults (p :: ps)
  = (if forallb optional_or_vector_param (p :: ps) then with_default p else p)
      :: assign_defaults ps.
Proof.
  unfold assign_defaults. rewrite reverse_cons, assign_defaults_reversed_snoc.
  rewrite forallb_reverse. cbn [forallb].
  destruct (forallb optional_or_vector_param ps) eqn:Hps.
  - rewrite reverse_app, reverse_singleton. cbn [app].
    rewrite assign_defaults_reversed_all by (by rewrite forallb_reverse).
    by rewrite andb_true_r.
  - rewrite reverse_app, reverse_singleton. cbn [app]. by rewrite andb_false_r.
Qed.

Lemma assign_defaults_lookup (ps : list cpp_param) (n : nat) (p : cpp_param) :
  ps !! n = Some p ->
  assign_defaults ps !! n
  = Some (if forallb optional_or_vector_param (drop n ps) then with_default p else p).
Proof.
  revert n. induction ps as [|q ps IH]; intros n Hn; [done|].
  rewrite assign_defaults_cons. destruct n as [|n]; [by injection Hn as ->|].
  cbn in *. by apply IH.
Qed.

Lemma assign_defaults_length (ps : list cpp_param) :
  length (assign_defaults ps) = length ps.
Proof.
  induction ps as [|p ps IH]; [done|]. rewrite assign_defaults_cons. cbn. by rewrite IH.
Qed.

Lemma assign_defaults_types (ps : list cpp_param) :
  map param_type (assign_defaults ps) = map param_type ps.
Proof.
  induction ps as [|p ps IH]; [done|]. rewrite assign_defaults_cons. cbn.
  rewrite IH. by destruct (_ && _).
Qed.

Lemma assign_defaults_names (ps : list cpp_param) :
  map param_name (assign_defaults ps) = map param_name ps.
Proof.
  induction ps as [|p ps IH]; [done|]. rewrite assign_defaults_cons. cbn.
  rewrite IH. by destruct (_ && _).
Qed.

(** *** From the operands to the parameters *)

Lemma get_cpp_param_inv (o : operand) (p : cpp_param) :
  get_cpp_param g d o = Ok p ->
  get_cpp_type g d o = Ok (param_type p)
  /\ get_cpp_param_name o = Ok (param_name p)
  /\ default_value p = "".
Proof.
  unfold get_cpp_param.
  destruct (get_cpp_type g d o) as [t|]; [|done]. cbn [bind].
  destruct (get_cpp_param_name o) as [n|]; [|done]. cbn [bind].
  by intros [= <-].
Qed.

Lemma instruction_params_inv (i : instruction) (ps : list cpp_param) :
  instruction_params g d i = Ok ps ->
  exists ps0,
    map_result (get_cpp_param g d) (Spec.operands_of i) = Ok ps0
    /\ ps = assign_defaults (dedup_names ps0).
Proof.
  unfold instruction_params, Spec.operands_of.
  destruct (map_result _ _) as [ps0|]; [|done]. cbn [bind].
  intros [= <-]. by exists ps0.
Qed.

(** The types of the parameters are the types of the operands, in order,
    and no pass but the last sets a default value. *)
Lemma instruction_params_types (i : instruction) (ps : list cpp_param) :
  instruction_params g d i = Ok ps ->
  exists ps1,
    ps = assign_defaults ps1
    /\ Forall2 (fun o p => get_cpp_type g d o = Ok (param_type p))
         (Spec.operands_of i) ps1
    /\ Forall (fun p => default_value p = "") ps1.
Proof.
  intros (ps0 & Hps0 & ->)%instruction_params_inv.
  exists (dedup_names ps0). split; [done|].
  apply map_result_ok in Hps0.
  assert (Forall2 (fun o t => get_cpp_type g d o = Ok t)
            (Spec.operands_of i) (map param_type ps0)) as Htypes.
  { apply Forall2_fmap_r. eapply Forall2_impl; [done|].
    by intros o p (? & _)%get_cpp_param_inv. }
  assert (Forall (fun v => v = "") (map default_value ps0)) as Hdefaults.
  { apply Forall_fmap. eapply Forall2_Forall_r; [done|].
    apply Forall_forall. by intros o _ p (_ & _ & ?)%get_cpp_param_inv. }
  rewrite <- dedup_names_types in Htypes.
  rewrite <- dedup_names_defaults in Hdefaults.
  split; [by apply Forall2_fmap_r in Htypes|by apply Forall_fmap in Hdefaults].
Qed.

(** The shape of a resolved base type, by category. *)
Lemma base_type_shape (k t : string) :
  get_base_cpp_type g d k = Ok t ->
  exists info, operands g !! k = Some info /\
    ((category info = "Id" /\ t = k)
     \/ (category info = "Literal" /\ literal_dict !! k = Some t)
     \/ (category info = "ValueEnum" /\ t = "spv::" +:+ k)
     \/ (category info = "BitEnum" /\ t = "spv::" +:+ k +:+ "Mask")
     \/ (category info = "Composite" /\
         exists ts, t = "std::tuple<" +:+ join ", " ts +:+ ">")).
Proof.
  destruct d as [|d']; [done|]. rewrite get_base_cpp_type_S. unfold getitem at 1.
  destruct (operands g !! k) as [info|]; [|done]. cbn [bind].
  intros Hstep. exists info. split; [done|].
  unfold resolve_step in Hstep. case_category info; try done.
  - left. by injection Hstep as <-.
  - right; left. unfold getitem in Hstep.
    by destruct (literal_dict !! k) as [t'|]; [injection Hstep as <-|].
  - right; right; left. by injection Hstep as <-.
  - right; right; right; left. by injection Hstep as <-.
  - right; right; right; right.
    destruct (bases info) as [bs|]; [|done]. cbn [bind] in Hstep.
    destruct (map_result _ bs) as [ts|]; [|done]. cbn [bind] in Hstep.
    injection Hstep as <-. eauto.
Qed.

Lemma literal_dict_cases (k t : string) :
  literal_dict !! k = Some t ->
  (k, t) ∈ [("LiteralInteger", "uint32_t"); ("LiteralString", "std::string");
            ("LiteralFloat", "float");
            ("LiteralContextDependentNumber", "spvConstant auto");
            ("LiteralExtInstInteger", "uint32_t");
            ("LiteralSpecConstantOpInteger", "uint32_t")].
Proof. apply elem_of_list_to_map_2. Qed.

(** The quantifier wrapper, on a resolved base type. *)
Lemma get_cpp_type_inv (o : operand) (t : string) :
  get_cpp_type g d o = Ok t ->
  exists t0, get_base_cpp_type g d (op_kind o) = Ok t0 /\
    ((op_quantifier o = None /\ t = t0)
     \/ (op_quantifier o = Some "?" /\ t = "std::optional<" +:+ t0 +:+ ">")
     \/ (op_quantifier o = Some "*" /\ t = "std::vector<" +:+ t0 +:+ ">")).
Proof.
  unfold get_cpp_type.
  destruct (get_base_cpp_type g d (op_kind o)) as [t0|]; [|done]. cbn [bind].
  intros Ht. exists t0. split; [done|].
  destruct (op_quantifier o) as [q|]; [|left; by injection Ht as <-].
  destruct (String.eqb_spec q "?") as [Hq|_].
  { right; left. injection Ht as <-. by rewrite Hq. }
  destruct (String.eqb_spec q "*") as [Hq|_]; [|done].
  right; right. injection Ht as <-. by rewrite Hq.
Qed.

(** The text test of the default-value loop agrees with the quantifier. *)
Lemma type_text_wrapped (o : operand) (t : string) :
  Spec.id_kinds_read_unwrapped g ->
  get_cpp_type g d o = Ok t ->
  is_optional_or_vector t = Spec.is_optional_or_sequence o.
Proof.
  intros Hids (t0 & Ht0 & Hq)%get_cpp_type_inv. unfold Spec.is_optional_or_sequence.
  destruct o as [k q n]. cbn [op_kind op_quantifier] in *.
  destruct Hq as [[-> ->]|[[-> ->]|[-> ->]]]; [|done..].
  apply base_type_shape in Ht0 as (info & Hk & Hshape).
  destruct Hshape as [[Hcat ->]|[[_ Hlit]|[[_ ->]|[[_ ->]|[_ [ts ->]]]]]]; [|  |done..].
  - by eapply Hids.
  - apply literal_dict_cases in Hlit.
    repeat (apply elem_of_cons in Hlit as [[= -> ->]|Hlit]; [done|]).
    by apply elem_of_nil in Hlit.
Qed.

(** The text test of the word count agrees with the simple operands. *)
Lemma type_text_simple (o : operand) (t : string) :
  Spec.id_kinds_read_simple g ->
  get_cpp_type g d o = Ok t ->
  is_simple_type t = Spec.is_simple_operand g o.
Proof.
  intros Hids (t0 & Ht0 & Hq)%get_cpp_type_inv. unfold Spec.is_simple_operand.
  destruct o as [k q n]. cbn [op_kind op_quantifier] in *.
  destruct Hq as [[-> ->]|[[-> ->]|[-> ->]]]; [|done..].
  apply base_type_shape in Ht0 as (info & Hk & Hshape). rewrite Hk.
  destruct Hshape as [[Hcat ->]|[[Hcat Hlit]|[[Hcat ->]|[[Hcat ->]|[Hcat [ts ->]]]]]];
    rewrite Hcat; [| |done..].
  - by rewrite (Hids _ _ Hk Hcat).
  - apply literal_dict_cases in Hlit.
    repeat (apply elem_of_cons in Hlit as [[= -> ->]|Hlit]; [done|]).
    by apply elem_of_nil in Hlit.
Qed.

Lemma forallb_Forall2 {A B} (f : A -> bool) (h : B -> bool) (xs : list A) (ys : list B) :
  Forall2 (fun x y => f x = h y) xs ys -> forallb f xs = forallb h ys.
Proof. induction 1 as [|x y xs ys Hxy _ IH]; [done|]. cbn. by rewrite Hxy, IH. Qed.

Lemma forallb_drop {A} (f : A -> bool) (n : nat) (xs : list A) :
  forallb f xs = true -> forallb f (drop n xs) = true.
Proof.
  revert n. induction xs as [|x xs IH]; intros [|n]; try done.
  cbn. intros [_ Hxs]%andb_prop. by apply IH.
Qed.

Lemma assign_defaults_lookup_inv (ps : list cpp_param) (n : nat) (p : cpp_param) :
  assign_defaults ps !! n = Some p ->
  exists p1, ps !! n = Some p1
    /\ p = if forallb optional_or_vector_param (drop n ps) then with_default p1 else p1.
Proof.
  intros Hn.
  destruct (ps !! n) as [p1|] eqn:Hp1.
  - exists p1. split; [done|]. rewrite (assign_defaults_lookup _ _ _ Hp1) in Hn.
    by injection Hn as <-.
  - apply lookup_ge_None in Hp1. rewrite <- assign_defaults_length in Hp1.
    apply lookup_ge_None in Hp1. congruence.
Qed.

(** C3, as amended.  The parameters of an instruction that get the default
    value are exactly those of the maximal trailing run of Optional and
    Sequence operands (parameter [n] has it if and only if every operand
    from [n] on carries the marker [?] or [*]), provided that no Id kind has
    a name that starts like the text of an optional or vector type; and in
    any case every parameter after one with the default value has it too. *)
Theorem default_values_trailing_run (i : instruction) (ps : list cpp_param) :
  instruction_params g d i = Ok ps ->
  length ps = length (Spec.operands_of i)
  /\ (Spec.id_kinds_read_unwrapped g ->
      forall n p, ps !! n = Some p ->
        default_value p
        = if forallb Spec.is_optional_or_sequence (drop n (Spec.operands_of i))
          then " = {}" else "")
  /\ (forall n m p q,
        n <= m -> ps !! n = Some p -> ps !! m = Some q ->
        default_value p = " = {}" -> default_value q = " = {}").
Proof.
  intros (ps1 & -> & Htypes & Hdef)%instruction_params_types.
  split; [|split].
  - rewrite assign_defaults_length. symmetry. by eapply Forall2_length.
  - intros Hids n p (p1 & Hp1 & ->)%assign_defaults_lookup_inv.
    assert (forallb optional_or_vector_param (drop n ps1)
            = forallb Spec.is_optional_or_sequence (drop n (Spec.operands_of i))) as ->.
    { symmetry. apply forallb_Forall2. apply Forall2_drop.
      eapply Forall2_impl; [done|]. intros o p' Ho. cbn in Ho. symmetry.
      by apply type_text_wrapped. }
    destruct (forallb _ _); [done|].
    rewrite Forall_forall in Hdef. apply Hdef. by eapply list_elem_of_lookup_2.
  - intros n m p q Hle (p1 & Hp1 & ->)%assign_defaults_lookup_inv
      (q1 & Hq1 & ->)%assign_defaults_lookup_inv Hp.
    destruct (forallb optional_or_vector_param (drop n ps1)) eqn:Hn.
    + replace m with (n + (m - n)) by lia. rewrite <- drop_drop.
      by rewrite forallb_drop.
    + rewrite Forall_forall in Hdef.
      rewrite (Hdef p1) in Hp by (by eapply list_elem_of_lookup_2). done.
Qed.

(** *** The word count *)

Lemma count_simple (ops : list operand) (ps : list cpp_param) :
  Forall2 (fun o p => is_simple_type (param_type p) = Spec.is_simple_operand g o) ops ps ->
  length (filter (fun t => is_simple_type t = true) (map param_type ps))
  = length (filter (fun o => Spec.is_simple_operand g o = true) ops)
  /\ length (filter (fun x => negb (is_simple_type (param_type x)) = true) ps)
    = length (filter (fun o => Spec.is_simple_operand g o = false) ops).
Proof.
  induction 1 as [|o p ops ps Hop _ [IH1 IH2]]; [done|].
  cbn [map]. rewrite !filter_cons, Hop.
  destruct (Spec.is_simple_operand g o); repeat case_decide; try done; cbn; auto.
Qed.

Lemma length_append (s t : string) :
  String.length (s +:+ t) = String.length s + String.length t.
Proof. induction s as [|c s IH]; [done|]. rewrite append_cons. cbn. by rewrite IH. Qed.

(** A comma-separated list is empty only for no element or one empty element. *)
Lemma join_empty (names : list string) :
  String.length (join ", " names) = 0 <-> names = [] \/ names = [""].
Proof.
  destruct names as [|x [|y names]]; unfold join.
  - split; [by left|done].
  - destruct x; cbn; split; try done; [by right|by intros [|]].
  - change (String.concat ", " (x :: y :: names))
      with (x +:+ ", " +:+ String.concat ", " (y :: names)).
    rewrite !length_append. cbn. split; [lia|by intros [|]].
Qed.

(** C2, as amended.  The fixed word count in the emitted text is 1 plus the
    number of simple operands, and the call of [countOperandsWord] follows
    it if and only if the instruction has a non-simple operand, other than
    a single non-simple operand whose final name is empty; [names] are the
    final names of the parameters of the non-simple operands.  This needs
    that no Id kind has a name that reads like a non-simple type. *)
Theorem word_count_of_instruction (i : instruction) (ps : list cpp_param) :
  Spec.id_kinds_read_simple g ->
  instruction_params g d i = Ok ps ->
  let ops := Spec.operands_of i in
  let names :=
    map param_name
      (filter (fun p => negb (is_simple_type (param_type p)) = true) ps) in
  length names = length (filter (fun o => Spec.is_simple_operand g o = false) ops)
  /\ get_word_count_code ps
     = "uint16_t wordCount = "
       +:+ str_of_nat
             (1 + length (filter (fun o => Spec.is_simple_operand g o = true) ops))
       +:+ ";" +:+ newline +:+ "    "
       +:+ (if bool_decide (names = [] \/ names = [""]) then ""
            else "countOperandsWord(wordCount," +:+ join ", " names +:+ ");").
Proof.
  intros Hids Hps ops names.
  destruct (instruction_params_types _ _ Hps) as (ps1 & Heq & Htypes & _).
  assert (Forall2 (fun o p => is_simple_type (param_type p) = Spec.is_simple_operand g o)
            ops ps) as Hsimple.
  { assert (Forall2 (fun o t => is_simple_type t = Spec.is_simple_operand g o)
              ops (map param_type ps)) as Htexts.
    { rewrite Heq, assign_defaults_types. apply Forall2_fmap_r.
      eapply Forall2_impl; [done|]. intros o p Ho. by apply type_text_simple. }
    apply Forall2_fmap_r in Htexts. eapply Forall2_impl; [done|]. by intros o p Ho. }
  destruct (count_simple _ _ Hsimple) as [Hcount1 Hcount2].
  split; [unfold names; by rewrite length_map|].
  unfold get_word_count_code, word_count. rewrite Hcount1.
  do 5 f_equal. unfold non_simple_types_code. fold names.
  destruct (String.length (join ", " names)) as [|len] eqn:Hlen.
  - apply join_empty in Hlen as Hnames. rewrite bool_decide_eq_true_2 by done.
    cbn. by destruct (join ", " names).
  - rewrite bool_decide_eq_false_2; [done|].
    intros Hnames%join_empty. lia.
Qed.

End Emitter.

(** *** The conditions on the names of the Id kinds, checked on the entries *)

Lemma operands_elem (g : grammar) (k : string) (info : operand_kind) :
  operands g !! k = Some info -> info ∈ operand_kinds g.
Proof.
  unfold operands, dict.
  assert (forall (l : list operand_kind) (m : gmap string operand_kind),
    (forall k v, m !! k = Some v -> v ∈ l) ->
    forall l' k v,
      fold_left (fun m kv => <[kv.1:=kv.2]> m) (map (fun x => (kind x, x)) l') m !! k
      = Some v -> v ∈ l ++ l') as Hfold.
  { intros l m Hm l'. revert l m Hm. induction l' as [|x l' IH]; intros l m Hm k' v.
    - rewrite app_nil_r. apply Hm.
    - cbn. intros Hv. rewrite (cons_middle x l l'), app_assoc.
      eapply IH; [|done]. intros k'' v'. rewrite lookup_insert.
      rewrite elem_of_app, list_elem_of_singleton.
      case_decide; [intros [= <-]; by right|].
      intros Hv'%Hm. by left. }
  intros Hk. apply (Hfold [] ∅) in Hk; [done|].
  intros k' v. by rewrite lookup_empty.
Qed.

Lemma check_id_kinds_sound (test : string -> bool) (g : grammar) :
  check_id_kinds test g = true ->
  forall k info,
    operands g !! k = Some info -> category info = "Id" -> test k = true.
Proof.
  unfold check_id_kinds. rewrite forallb_forall.
  intros Hall k info Hk Hcat. pose proof (operands_kind _ _ _ Hk) as <-.
  apply operands_elem, list_elem_of_In, Hall in Hk.
  by rewrite Hcat in Hk.
Qed.

Lemma check_read_simple (g : grammar) :
  check_id_kinds is_simple_type g = true -> Spec.id_kinds_read_simple g.
Proof. intros Hcheck k info. by apply (check_id_kinds_sound _ _ Hcheck). Qed.

Lemma check_read_unwrapped (g : grammar) :
  check_id_kinds (fun k => negb (is_optional_or_vector k)) g = true ->
  Spec.id_kinds_read_unwrapped g.
Proof.
  intros Hcheck k info Hk Hcat. apply negb_true_iff.
  by apply (check_id_kinds_sound _ _ Hcheck k info).
Qed.

(** *** The properties on instances *)

Lemma default_values_trailing_run_witness :
  instruction_params example_grammar 1 ext_inst_instruction = Ok ext_inst_params
  /\ length ext_inst_params = 4
  /\ (forall n p, ext_inst_params !! n = Some p ->
        default_value p
        = if forallb Spec.is_optional_or_sequence
               (drop n (Spec.operands_of ext_inst_instruction))
          then " = {}" else "")
  /\ (forall n m p q,
        n <= m -> ext_inst_params !! n = Some p -> ext_inst_params !! m = Some q ->
        default_value p = " = {}" -> default_value q = " = {}").
Proof.
  split; [reflexivity|].
  destruct (default_values_trailing_run example_grammar 1
              ext_inst_instruction ext_inst_params eq_refl) as (Hlen & Hrun & Htail).
  split; [exact Hlen|]. split; [|exact Htail].
  apply Hrun. apply check_read_unwrapped. reflexivity.
Defined.

(** C3 as stated fails when an Id kind is called like a vector type: the
    operand has no quantifier, so its type is neither Optional nor Sequence,
    and its parameter gets the default value. *)
Lemma default_value_counterexample :
  Spec.is_optional_or_sequence (nameless "std::vectorId") = false
  /\ get_cpp_type template_like_grammar 1 (nameless "std::vectorId")
     = Ok "std::vectorId"
  /\ instruction_params template_like_grammar 1
       (Instruction "OpOdd" (Some [nameless "std::vectorId"]))
     = Ok [CppParam "std::vectorId" "std::vectorId" " = {}"].
Proof. by repeat split. Qed.

Lemma word_count_of_instruction_witness :
  length ["operands"] = 1
  /\ get_word_count_code ext_inst_params
     = "uint16_t wordCount = 4;" +:+ newline
       +:+ "    countOperandsWord(wordCount,operands);".
Proof.
  apply (word_count_of_instruction example_grammar 1
           ext_inst_instruction ext_inst_params).
  - apply check_read_simple. reflexivity.
  - reflexivity.
Defined.

(** C2 as stated fails in two ways.  A string operand whose raw name has no
    word character is not simple, and its parameter has the empty name: no
    call of [countOperandsWord] is emitted.  An Id kind called like a vector
    type is simple, and is neither counted in the fixed word count nor left
    out of the call. *)
Lemma word_count_counterexample :
  Spec.is_simple_operand example_grammar (Operand "LiteralString" None (Some "?")) = false
  /\ instruction_params example_grammar 1 unnamed_string_instruction
     = Ok [CppParam "std::string" "" ""]
  /\ get_word_count_code [CppParam "std::string" "" ""]
     = "uint16_t wordCount = 1;" +:+ newline +:+ "    "
  /\ Spec.is_simple_operand template_like_grammar (nameless "std::vectorId") = true
  /\ instruction_params template_like_grammar 1
       (Instruction "OpOdd" (Some [nameless "std::vectorId"]))
     = Ok [CppParam "std::vectorId" "std::vectorId" " = {}"]
  /\ get_word_count_code [CppParam "std::vectorId" "std::vectorId" " = {}"]
     = "uint16_t wordCount = 1;" +:+ newline
       +:+ "    countOperandsWord(wordCount,std::vectorId);".
Proof. by repeat split. Qed.

(** The example of the specification: a result type and a result id give
    the fixed word count 3 and no call. *)
Lemma word_count_result_type_and_id :
  get_word_count_code
    [CppParam "IdResultType" "idResultType" ""; CppParam "IdResult" "idResult" ""]
  = "uint16_t wordCount = 3;" +:+ newline +:+ "    ".
Proof. reflexivity. Qed.

(** C1: the code at the failing input.  Of three operands called
    [Operand], [Operand] and [Operand 1], the first two are renamed to
    [operand1] and [operand2], and the third keeps its name [operand1]:
    the names of the parameters are not distinct. *)
Theorem renaming_repeats_a_name :
  instruction_params example_grammar 1 numbered_operands_instruction
  = Ok [CppParam "IdRef" "operand1" ""; CppParam "IdRef" "operand2" "";
        CppParam "IdRef" "operand1" ""]
  /\ ~ NoDup ["operand1"; "operand2"; "operand1"]
  /\ map param_name
       (dedup_names [CppParam "T" "a" ""; CppParam "T" "a" ""; CppParam "T" "a1" ""])
     = ["a1"; "a2"; "a1"].
Proof.
  split; [reflexivity|]. split; [|reflexivity].
  intros Hnodup. apply NoDup_cons in Hnodup as [Hnotin _].
  apply Hnotin. in_list.
Qed.

(** C10.  An instruction without the operands key, or with an empty list of
    operands, has no parameter; its function has an empty parameter list,
    the fixed word count 1, no call of [countOperandsWord], and a call of
    [writeWords] without arguments. *)
Theorem no_operands_code (g : grammar) (d : nat) (name : string) (i : instruction) :
  opname i = name ->
  ins_operands i = None \/ ins_operands i = Some [] ->
  instruction_params g d i = Ok []
  /\ word_count [] = 1
  /\ non_simple_types_code [] = ""
  /\ get_instruction_write_code [] = "writeWords();"
  /\ get_instruction_code g d i
     = Ok (newline +:+ "    void " +:+ name +:+ "()"
           +:+ newline +:+ "    {"
           +:+ newline +:+ "    uint16_t wordCount = 1;"
           +:+ newline +:+ "    "
           +:+ newline
           +:+ newline +:+ "    writeWord(spv::Op::" +:+ name +:+ ", wordCount);"
           +:+ newline +:+ "    writeWords();"
           +:+ newline +:+ "    }").
Proof.
  intros <- Hops.
  assert (instruction_params g d i = Ok []) as Hparams.
  { unfold instruction_params. by destruct Hops as [-> | ->]. }
  repeat split; try done.
  unfold get_instruction_code. rewrite Hparams. cbn [bind].
  reflexivity.
Qed.

Lemma no_operands_code_witness :
  get_instruction_code example_grammar 1 (Instruction "OpNop" None)
  = Ok (newline +:+ "    void OpNop()"
        +:+ newline +:+ "    {"
        +:+ newline +:+ "    uint16_t wordCount = 1;"
        +:+ newline +:+ "    "
        +:+ newline
        +:+ newline +:+ "    writeWord(spv::Op::OpNop, wordCount);"
        +:+ newline +:+ "    writeWords();"
        +:+ newline +:+ "    }").
Proof.
  apply (no_operands_code example_grammar 1 "OpNop" (Instruction "OpNop" None)).
  - reflexivity.
  - left. reflexivity.
Defined.

(** ** The Document Assembler: the order of the output

    The text of the builder functions and the text of the aliases are
    what the script puts in the place of the two markers of its template;
    the template itself is outside the generator. *)

Section Sorting.

Context {A : Type} (key : A -> string).

Lemma ltb_leb (s t : string) : String.ltb s t = true -> String.leb s t = true.
Proof. unfold String.ltb, String.leb. by destruct (String.compare s t). Qed.

Lemma not_ltb_leb (s t : string) : String.ltb s t = false -> String.leb t s = true.
Proof.
  unfold String.ltb, String.leb. rewrite (String.compare_antisym t s).
  by destruct (String.compare s t).
Qed.

Lemma leb_ne_ltb (s t : string) :
  String.leb s t = true -> s <> t -> String.ltb s t = true.
Proof.
  unfold String.ltb, String.leb.
  destruct (String.compare s t) eqn:Hcmp; try done.
  by apply String.compare_eq_iff in Hcmp.
Qed.

Lemma leb_trans (s t u : string) :
  String.leb s t = true -> String.leb t u = true -> String.leb s u = true.
Proof.
  intros Hst Htu. apply Is_true_true. apply Is_true_true in Hst, Htu.
  exact (transitivity (R := String.le) Hst Htu).
Qed.

Lemma insert_sorted_perm (x : A) (xs : list A) : insert_sorted key x xs ≡ₚ x :: xs.
Proof.
  induction xs as [|y ys IH]; [done|]. cbn.
  destruct (String.ltb (key y) (key x)); [|done].
  by rewrite IH, Permutation_swap.
Qed.

Lemma sorted_perm (xs : list A) : sorted key xs ≡ₚ xs.
Proof.
  induction xs as [|x xs IH]; [done|]. cbn.
  by rewrite insert_sorted_perm, IH.
Qed.

Lemma insert_sorted_sorted (x : A) (xs : list A) :
  StronglySorted (key_le key) xs ->
  StronglySorted (key_le key) (insert_sorted key x xs).
Proof.
  induction 1 as [|y ys Hys IH Hy]; cbn; [by repeat constructor|].
  destruct (String.ltb (key y) (key x)) eqn:Hlt.
  - constructor; [done|]. rewrite insert_sorted_perm.
    constructor; [by apply ltb_leb|done].
  - apply not_ltb_leb in Hlt. constructor; [by constructor|].
    constructor; [done|]. eapply Forall_impl; [done|].
    intros z Hz. by eapply leb_trans.
Qed.

Lemma sorted_sorted (xs : list A) : StronglySorted (key_le key) (sorted key xs).
Proof.
  induction xs as [|x xs IH]; [constructor|]. by apply insert_sorted_sorted.
Qed.

(** Distinct keys make the order strict. *)
Lemma sorted_strict (xs : list A) :
  NoDup (map key xs) ->
  StronglySorted (key_le key) xs -> StronglySorted (key_lt key) xs.
Proof.
  intros Hnodup. induction 1 as [|x xs Hxs IH Hx]; [constructor|].
  apply NoDup_cons in Hnodup as [Hnotin Hnodup].
  constructor; [by apply IH|].
  apply Forall_forall. intros y Hy. apply leb_ne_ltb.
  - rewrite Forall_forall in Hx. by apply Hx.
  - intros Heq. apply Hnotin. rewrite Heq. by apply list_elem_of_fmap_2.
Qed.

Lemma sorted_keys (xs : list A) :
  StronglySorted (key_lt key) xs ->
  StronglySorted (fun a b => String.ltb a b = true) (map key xs).
Proof.
  induction 1 as [|x xs _ IH Hx]; [constructor|]. cbn. constructor; [done|].
  by apply Forall_fmap.
Qed.

Lemma NoDup_key_inj (xs : list A) (x y : A) :
  NoDup (map key xs) -> x ∈ xs -> y ∈ xs -> key x = key y -> x = y.
Proof.
  induction xs as [|z zs IH]; [by intros _ ?%elem_of_nil|].
  cbn. intros [Hnotin Hnodup]%NoDup_cons Hx Hy Heq.
  apply elem_of_cons in Hx as [->|Hx], Hy as [->|Hy]; [done| | |by apply IH].
  - exfalso. apply Hnotin. rewrite Heq. by apply list_elem_of_fmap_2.
  - exfalso. apply Hnotin. rewrite <- Heq. by apply list_elem_of_fmap_2.
Qed.

Lemma NoDup_keys_filter (P : A -> Prop) `{!forall x, Decision (P x)} (xs : list A) :
  NoDup (map key xs) -> NoDup (map key (filter P xs)).
Proof.
  intros Hnodup. apply NoDup_fmap_2_strong.
  - intros x y [_ Hx]%list_elem_of_filter [_ Hy]%list_elem_of_filter.
    by apply (NoDup_key_inj xs).
  - apply NoDup_filter. by eapply NoDup_fmap_1.
Qed.

(** With distinct keys the result of the sort does not depend on the order
    of the input. *)
Lemma sorted_of_permutation (xs ys : list A) :
  NoDup (map key xs) -> xs ≡ₚ ys -> sorted key xs = sorted key ys.
Proof.
  intros Hnodup Hperm.
  apply (StronglySorted_unique_strong (key_le key)).
  - intros x1 x2 Hx1 Hx2 H12 H21.
    apply (NoDup_key_inj xs); [done| | |by apply String.leb_antisym].
    + by rewrite <- (sorted_perm xs).
    + by rewrite Hperm, <- (sorted_perm ys).
  - apply sorted_sorted.
  - apply sorted_sorted.
  - by rewrite !sorted_perm.
Qed.

End Sorting.

Section Assembler.

Lemma dict_list_to_map {V} (pairs : list (string * V)) :
  dict pairs = list_to_map (rev pairs).
Proof.
  unfold dict, list_to_map.
  exact (eq_sym (fold_left_rev_right (fun (p : string * V) m => <[p.1:=p.2]> m) pairs ∅)).
Qed.

(** With distinct kind names the catalog does not depend on the order of
    the entries. *)
Lemma operands_of_permutation (g g' : grammar) :
  NoDup (map kind (operand_kinds g)) ->
  operand_kinds g' ≡ₚ operand_kinds g ->
  operands g' = operands g.
Proof.
  intros Hnodup Hperm. unfold operands. rewrite !dict_list_to_map.
  symmetry. apply list_to_map_proper.
  - rewrite <- map_rev.
    replace ((map (fun x => (kind x, x)) (rev (operand_kinds g))).*1)
      with (rev (map kind (operand_kinds g))).
    + by rewrite <- Permutation_rev.
    + rewrite <- map_rev. generalize (rev (operand_kinds g)).
      intros l. induction l as [|x l IH]; [done|]. cbn. by rewrite IH.
  - by rewrite <- !Permutation_rev, Hperm.
Qed.

(** The generator reads the grammar through the catalog only. *)
Lemma get_base_cpp_type_catalog (g g' : grammar) (d : nat) (k : string) :
  operands g' = operands g ->
  get_base_cpp_type g' d k = get_base_cpp_type g d k.
Proof.
  intros Hops. revert k. induction d as [|d IH]; intros k; [done|].
  rewrite !get_base_cpp_type_S, Hops.
  destruct (getitem (operands g) k) as [info|]; [|done]. cbn [bind].
  unfold resolve_step. rewrite Hops.
  repeat (destruct (String.eqb (category info) _); [done|]).
  destruct (String.eqb (category info) "Composite"); [|done].
  destruct (bases info) as [bs|]; [|done]. cbn [bind].
  rewrite (map_result_ext _
             (fun x => let* x_info := getitem (operands g) x in
                       get_base_cpp_type g d (kind x_info))); [done|].
  intros x. destruct (getitem (operands g) x); [apply IH|done].
Qed.

Lemma get_instruction_code_catalog (g g' : grammar) (d : nat) (i : instruction) :
  operands g' = operands g ->
  get_instruction_code g' d i = get_instruction_code g d i.
Proof.
  intros Hops. unfold get_instruction_code, instruction_params.
  rewrite (map_result_ext (get_cpp_param g' d) (get_cpp_param g d)); [done|].
  intros o. unfold get_cpp_param, get_cpp_type.
  by rewrite (get_base_cpp_type_catalog g g').
Qed.

(** C8, as amended.  For a grammar with distinct opnames and distinct kind
    names, the text of the builder functions is the text of the
    instructions in the strict lexicographic order of their opnames, the Id
    aliases are one line for each Id kind in the strict lexicographic order
    of the kind names, and neither depends on the order of the entries of
    the grammar. *)
Theorem output_sorted (g : grammar) (d : nat) :
  NoDup (map opname (instructions g)) ->
  NoDup (map kind (operand_kinds g)) ->
  (exists ins,
      ins ≡ₚ instructions g
      /\ StronglySorted (fun a b => String.ltb a b = true) (map opname ins)
      /\ generated_code g d
         = (let* codes := map_result (get_instruction_code g d) ins in
            Ok (join newline codes)))
  /\ (exists ids,
      ids ≡ₚ filter (fun x => category x = "Id") (operand_kinds g)
      /\ StronglySorted (fun a b => String.ltb a b = true) (map kind ids)
      /\ get_spv_ids_types g = join newline (map alias_line ids))
  /\ (forall g',
      instructions g' ≡ₚ instructions g ->
      operand_kinds g' ≡ₚ operand_kinds g ->
      generated_code g' d = generated_code g d
      /\ get_spv_ids_types g' = get_spv_ids_types g).
Proof.
  intros Hopnames Hkinds.
  assert (forall l : list operand_kind,
             filter (fun x => category x = "Id") l
             = filter (fun x => String.eqb (category x) "Id" = true) l) as Hfilter.
  { intros l. apply list_filter_iff. intros x. by rewrite String.eqb_eq. }
  split; [|split].
  - exists (sorted opname (instructions g)). split; [apply sorted_perm|].
    split; [|done].
    apply sorted_keys, sorted_strict; [|apply sorted_sorted].
    by rewrite sorted_perm.
  - exists (sorted kind (filter (fun x => category x = "Id") (operand_kinds g))).
    split; [apply sorted_perm|]. split.
    + apply sorted_keys, sorted_strict; [|apply sorted_sorted].
      rewrite sorted_perm. by apply NoDup_keys_filter.
    + unfold get_spv_ids_types. by rewrite Hfilter.
  - intros g' Hins Hops.
    pose proof (operands_of_permutation g g' Hkinds Hops) as Hcatalog.
    split.
    + unfold generated_code.
      rewrite (sorted_of_permutation opname (instructions g') (instructions g));
        [|by rewrite Hins|done].
      by rewrite (map_result_ext _ _ _
                    (fun i => get_instruction_code_catalog g g' d i Hcatalog)).
    + unfold get_spv_ids_types. rewrite <- !Hfilter.
      rewrite (sorted_of_permutation kind
                 (filter (fun x => category x = "Id") (operand_kinds g'))
                 (filter (fun x => category x = "Id") (operand_kinds g))); [done| |].
      * rewrite Hops. by apply NoDup_keys_filter.
      * by rewrite Hops.
Qed.

End Assembler.

Lemma output_sorted_witness :
  (exists ins,
      ins ≡ₚ instructions example_grammar
      /\ StronglySorted (fun a b => String.ltb a b = true) (map opname ins)
      /\ generated_code example_grammar 1
         = (let* codes := map_result (get_instruction_code example_grammar 1) ins in
            Ok (join newline codes)))
  /\ (exists ids,
      ids ≡ₚ filter (fun x => category x = "Id") (operand_kinds example_grammar)
      /\ StronglySorted (fun a b => String.ltb a b = true) (map kind ids)
      /\ get_spv_ids_types example_grammar = join newline (map alias_line ids))
  /\ (forall g',
      instructions g' ≡ₚ instructions example_grammar ->
      operand_kinds g' ≡ₚ operand_kinds example_grammar ->
      generated_code g' 1 = generated_code example_grammar 1
      /\ get_spv_ids_types g' = get_spv_ids_types example_grammar).
Proof.
  apply (output_sorted example_grammar 1).
  - apply (bool_decide_unpack _). vm_compute. exact I.
  - apply (bool_decide_unpack _). vm_compute. exact I.
Defined.

(** C8 as stated fails on a grammar that repeats an opname or a kind
    name.  With the opname [OpA] twice no order of the instructions is
    strict, and the text of the builder functions follows the order of the
    two entries: the grammar and the grammar with the two entries swapped
    give different texts.  With the Id kind [IdRef] twice the aliases have
    two lines for the one kind. *)
Lemma repeated_opname_counterexample :
  instructions repeated_opname_grammar_swapped
    ≡ₚ instructions repeated_opname_grammar
  /\ operand_kinds repeated_opname_grammar_swapped
     = operand_kinds repeated_opname_grammar
  /\ is_ok (generated_code repeated_opname_grammar 1)
  /\ is_ok (generated_code repeated_opname_grammar_swapped 1)
  /\ generated_code repeated_opname_grammar_swapped 1
     <> generated_code repeated_opname_grammar 1
  /\ (forall ins,
        ins ≡ₚ instructions repeated_opname_grammar ->
        ~ StronglySorted (fun a b => String.ltb a b = true) (map opname ins))
  /\ get_spv_ids_types repeated_opname_grammar
     = "using IdRef = spv::Id;" +:+ newline +:+ "using IdRef = spv::Id;".
Proof.
  split; [apply Permutation_swap|]. split; [reflexivity|].
  split; [eexists; reflexivity|]. split; [eexists; reflexivity|].
  split; [|split; [|reflexivity]].
  - intros Heq. vm_compute in Heq. discriminate Heq.
  - intros ins Hperm Hsorted.
    assert (Forall (fun i => opname i = "OpA") ins) as Hall.
    { rewrite Hperm. repeat constructor. }
    pose proof (Permutation_length Hperm) as Hlen.
    destruct ins as [|a [|b [|c ins]]]; try done.
    apply Forall_cons in Hall as [Ha [Hb _]%Forall_cons].
    cbn [map] in Hsorted. apply StronglySorted_inv in Hsorted as [_ Hlt].
    apply Forall_cons in Hlt as [Hlt _]. by rewrite Ha, Hb in Hlt.
Qed.

(** The order on the example: the instructions and the Id kinds of
    [example_grammar], sorted. *)
Lemma example_grammar_order :
  map opname (sorted opname (instructions example_grammar))
  = ["OpExtInst"; "OpName"; "OpNop"]
  /\ get_spv_ids_types example_grammar
     = "using IdRef = spv::Id;" +:+ newline
       +:+ "using IdResult = spv::Id;" +:+ newline
       +:+ "using IdResultType = spv::Id;".
Proof. by split. Qed.

(** ** When the renaming does give distinct names

    The renaming appends a number to a repeated name and never looks at
    the names that are already there.  When no derived name ends in a
    digit, a renamed name cannot meet another name, and the names of the
    parameters come out distinct. *)

Section Renaming.

Lemma last_char_append (s t : string) :
  t <> "" -> Re.last_char (s +:+ t) = Re.last_char t.
Proof.
  intros Ht. induction s as [|c s IH]; [done|]. rewrite append_cons.
  cbn. rewrite IH. destruct (s +:+ t) eqn:Hst; [|done].
  destruct s; [by cbn in Hst|done].
Qed.

Lemma all_digits_ends_in_digit (s : string) :
  all_chars is_digit_char s = true -> s <> "" -> ends_in_digit s = true.
Proof.
  unfold ends_in_digit. induction s as [|c s IH]; [done|]. cbn.
  intros [Hc Hs]%andb_prop _. destruct s as [|c' s]; [done|].
  by apply IH.
Qed.

Lemma ends_in_digit_append (k s : string) :
  s <> "" -> ends_in_digit (k +:+ s) = ends_in_digit s.
Proof. intros Hs. unfold ends_in_digit. by rewrite last_char_append. Qed.

Lemma ends_in_digit_tail (c : ascii) (s : string) :
  ends_in_digit (String c s) = false -> ends_in_digit s = false.
Proof. unfold ends_in_digit. cbn. by destruct s. Qed.

Lemma all_digits_append (s t : string) :
  all_chars is_digit_char (s +:+ t) = true -> all_chars is_digit_char s = true.
Proof.
  induction s as [|c s IH]; [done|]. rewrite append_cons. cbn.
  intros [Hc Hs]%andb_prop. by rewrite Hc, IH.
Qed.

(** A name splits in one way only into a part that does not end in a digit
    and the digits after it. *)
Lemma append_digits_inj (k k' s s' : string) :
  ends_in_digit k = false -> ends_in_digit k' = false ->
  all_chars is_digit_char s = true -> all_chars is_digit_char s' = true ->
  k +:+ s = k' +:+ s' -> k = k' /\ s = s'.
Proof.
  revert k'. induction k as [|c k IH]; intros [|c' k'] Hk Hk' Hs Hs' Heq.
  - done.
  - exfalso. change (s = String c' k' +:+ s') in Heq. subst s.
    apply all_digits_append in Hs.
    rewrite all_digits_ends_in_digit in Hk'; done.
  - exfalso. change (String c k +:+ s = s') in Heq. subst s'.
    apply all_digits_append in Hs'.
    rewrite all_digits_ends_in_digit in Hk; done.
  - rewrite !append_cons in Heq. injection Heq as -> Heq.
    destruct (IH k') as [-> ->]; eauto using ends_in_digit_tail.
Qed.

Lemma string_of_uint_digits (u : Decimal.uint) :
  all_chars is_digit_char (NilEmpty.string_of_uint u) = true.
Proof. induction u; cbn; done. Qed.

Lemma str_of_nat_digits (n : nat) : all_chars is_digit_char (str_of_nat n) = true.
Proof. apply string_of_uint_digits. Qed.

Lemma str_of_nat_nonempty (n : nat) : str_of_nat n <> "".
Proof.
  unfold str_of_nat.
  assert (Nat.to_uint n <> Decimal.Nil) as Hnil.
  { rewrite <- (DecimalNat.Unsigned.of_to n) at 1.
    rewrite DecimalNat.Unsigned.to_of. apply DecimalFacts.unorm_nonnil. }
  by destruct (Nat.to_uint n).
Qed.

Lemma str_of_nat_inj (n m : nat) : str_of_nat n = str_of_nat m -> n = m.
Proof.
  unfold str_of_nat. intros Heq. apply DecimalNat.Unsigned.to_uint_inj.
  assert (Some (Nat.to_uint n) = Some (Nat.to_uint m)) as [=]; [|done].
  by rewrite <- !NilEmpty.usu, Heq.
Qed.

(** *** The counter *)

Lemma counter_add_keys (c : list (string * nat)) (x : string) :
  (counter_add c x).*1 = if bool_decide (x ∈ c.*1) then c.*1 else c.*1 ++ [x].
Proof.
  induction c as [|[k n] c IH]; [done|]. cbn.
  destruct (String.eqb_spec k x) as [->|Hne]; cbn.
  - rewrite bool_decide_eq_true_2; [done|by left].
  - rewrite IH. destruct (bool_decide (x ∈ c.*1)) eqn:Hx.
    + apply bool_decide_eq_true in Hx. rewrite bool_decide_eq_true_2; [done|by right].
    + apply bool_decide_eq_false in Hx. rewrite bool_decide_eq_false_2; [done|].
      by intros [?|?]%elem_of_cons.
Qed.

Lemma counter_add_NoDup (c : list (string * nat)) (x : string) :
  NoDup c.*1 -> NoDup (counter_add c x).*1.
Proof.
  intros Hc. rewrite counter_add_keys. case_bool_decide as Hx; [done|].
  apply NoDup_app. split; [done|]. split; [|apply NoDup_singleton].
  by intros y Hy ->%list_elem_of_singleton.
Qed.

(** The counter as a map: adding a name adds one to its count. *)
Lemma counter_add_map (c : list (string * nat)) (x : string) :
  (list_to_map (counter_add c x) : gmap string nat)
  = <[x := S (default 0 ((list_to_map c : gmap string nat) !! x))]> (list_to_map c).
Proof.
  induction c as [|[k n] c IH]; [done|]. cbn.
  destruct (String.eqb_spec k x) as [->|Hne]; cbn.
  - by rewrite lookup_insert_eq, insert_insert_eq.
  - rewrite IH, lookup_insert_ne by done. by apply insert_insert_ne.
Qed.

Lemma counter_fold_count (names : list string) (c : list (string * nat)) (k : string) :
  default 0 ((list_to_map (fold_left counter_add names c) : gmap string nat) !! k)
  = default 0 ((list_to_map c : gmap string nat) !! k) + count_occ String.string_dec names k.
Proof.
  revert c. induction names as [|x names IH]; intros c; [cbn; lia|].
  cbn [fold_left]. rewrite IH, counter_add_map. cbn [count_occ].
  destruct (String.string_dec x k) as [->|Hne].
  - rewrite lookup_insert_eq. cbn. lia.
  - by rewrite lookup_insert_ne.
Qed.

Lemma counter_fold_None (names : list string) (c : list (string * nat)) (k : string) :
  (list_to_map (fold_left counter_add names c) : gmap string nat) !! k = None
  <-> (list_to_map c : gmap string nat) !! k = None /\ count_occ String.string_dec names k = 0.
Proof.
  revert c. induction names as [|x names IH]; intros c; [cbn; tauto|].
  cbn [fold_left]. rewrite IH, counter_add_map. cbn [count_occ].
  destruct (String.string_dec x k) as [->|Hne].
  - rewrite lookup_insert_eq. split; [by intros [? _]|by intros [_ ?]].
  - by rewrite lookup_insert_ne.
Qed.

Lemma counter_fold_NoDup (names : list string) (c : list (string * nat)) :
  NoDup c.*1 -> NoDup (fold_left counter_add names c).*1.
Proof.
  revert c. induction names as [|x names IH]; intros c Hc; [done|].
  cbn. by apply IH, counter_add_NoDup.
Qed.

(** The items of the counter: distinct keys, every name a key, and the
    number of occurrences as the count. *)
Lemma Counter_NoDup (names : list string) : NoDup (Counter names).*1.
Proof. apply counter_fold_NoDup. constructor. Qed.

Lemma Counter_count (names : list string) (k : string) (n : nat) :
  (k, n) ∈ Counter names -> n = count_occ String.string_dec names k /\ In k names.
Proof.
  intros Hkn. apply (elem_of_list_to_map_1 (M := gmap string)) in Hkn;
    [|apply Counter_NoDup].
  unfold Counter in Hkn. split.
  - pose proof (counter_fold_count names [] k) as Hcount.
    rewrite Hkn in Hcount. cbn in Hcount. by rewrite lookup_empty in Hcount.
  - apply (count_occ_In String.string_dec).
    destruct (count_occ String.string_dec names k) eqn:Hzero; [|lia].
    assert ((list_to_map (fold_left counter_add names []) : gmap string nat) !! k = None)
      as Hnone by (by apply counter_fold_None).
    congruence.
Qed.

Lemma Counter_key (names : list string) (k : string) :
  In k names -> k ∈ (Counter names).*1.
Proof.
  intros Hk%(count_occ_In String.string_dec).
  destruct (decide (k ∈ (Counter names).*1)) as [|Hnot]; [done|].
  apply (not_elem_of_list_to_map (M := gmap string)) in Hnot.
  apply counter_fold_None in Hnot as [_ Hzero]. lia.
Qed.

(** *** One renaming *)

Lemma rename_params_names (k : string) (nr : nat) (ps : list cpp_param) :
  map param_name (rename_params k nr ps)
  ≡ₚ filter (fun x => x <> k) (map param_name ps)
     ++ fresh_names k nr (count_occ String.string_dec (map param_name ps) k).
Proof.
  unfold fresh_names. revert nr. induction ps as [|p ps IH]; intros nr; [done|].
  cbn [rename_params map count_occ]. rewrite filter_cons.
  destruct (String.eqb_spec (param_name p) k) as [Hp|Hp].
  - destruct (String.string_dec (param_name p) k) as [_|?]; [|done].
    destruct (decide (param_name p <> k)) as [Hne|_]; [by destruct Hne|].
    cbn [map seq param_name set_name].
    rewrite IH. apply Permutation_middle.
  - destruct (String.string_dec (param_name p) k) as [?|_]; [done|].
    destruct (decide (param_name p <> k)) as [_|Hne]; [|by destruct Hne].
    cbn. by rewrite IH.
Qed.

Lemma count_occ_filter_ne (names : list string) (k x : string) :
  count_occ String.string_dec (filter (fun y => y <> k) names) x
  = if decide (x = k) then 0 else count_occ String.string_dec names x.
Proof.
  induction names as [|y names IH]; [by case_decide|].
  rewrite filter_cons. cbn [count_occ].
  destruct (decide (y <> k)) as [Hy|Hy]; cbn [count_occ].
  - rewrite IH. destruct (String.string_dec y x) as [->|]; [|done].
    by rewrite !decide_False by done.
  - apply dec_stable in Hy as ->. rewrite IH.
    destruct (String.string_dec k x) as [->|]; [|done].
    by rewrite !decide_True by done.
Qed.

Lemma rename_params_count (k : string) (nr : nat) (ps : list cpp_param) (x : string) :
  count_occ String.string_dec (map param_name (rename_params k nr ps)) x
  = (if decide (x = k) then 0 else count_occ String.string_dec (map param_name ps) x)
    + count_occ String.string_dec
        (fresh_names k nr (count_occ String.string_dec (map param_name ps) k)) x.
Proof.
  rewrite (proj1 (Permutation_count_occ String.string_dec _ _)
             (rename_params_names k nr ps) x).
  by rewrite count_occ_app, count_occ_filter_ne.
Qed.

Lemma fresh_names_NoDup (k : string) (nr m : nat) : NoDup (fresh_names k nr m).
Proof.
  unfold fresh_names. apply (NoDup_fmap_2_strong _); [|apply NoDup_seq].
  intros a b _ _ Hab. by apply (inj (String.app k)), str_of_nat_inj in Hab.
Qed.

Lemma fresh_names_elem (k : string) (nr m : nat) (x : string) :
  In x (fresh_names k nr m) -> exists a, x = k +:+ str_of_nat a.
Proof.
  unfold fresh_names. intros (a & <- & _)%in_map_iff. by exists a.
Qed.

Lemma fresh_name_ends_in_digit (k : string) (a : nat) :
  ends_in_digit (k +:+ str_of_nat a) = true.
Proof.
  rewrite ends_in_digit_append by apply str_of_nat_nonempty.
  apply all_digits_ends_in_digit; [apply str_of_nat_digits|apply str_of_nat_nonempty].
Qed.

Lemma settled_name_weaken (item : string * nat) (todo : list (string * nat)) (x : string) :
  settled_name (item :: todo) x -> settled_name todo x.
Proof.
  intros (k & s & -> & Hs & Hk & Hend). exists k, s. repeat split; try done.
  intros Hin. apply Hk. by right.
Qed.

(** *** The loop over the items of the counter *)

(** A fresh name is not among names that are keys still to come or
    settled. *)
Lemma fresh_name_not_in (k : string) (c a : nat) (todo : list (string * nat))
    (names : list string) :
  NoDup ((k, c) :: todo).*1 ->
  (forall k', k' ∈ ((k, c) :: todo).*1 -> ends_in_digit k' = false) ->
  (forall x, In x names ->
     x ∈ ((k, c) :: todo).*1
     \/ (count_occ String.string_dec names x = 1 /\ settled_name ((k, c) :: todo) x)) ->
  ~ In (k +:+ str_of_nat a) names.
Proof.
  intros Hnodup Hkeys Hnames Hin.
  destruct (Hnames _ Hin) as [Hkey|[_ (k' & s & Heq & Hs & Hk' & Hend)]].
  - apply Hkeys in Hkey. by rewrite fresh_name_ends_in_digit in Hkey.
  - apply append_digits_inj in Heq as [<- _];
      [|apply Hkeys; by left|done|apply str_of_nat_digits|done].
    apply Hk'. by left.
Qed.

Lemma renaming_loop_distinct (todo : list (string * nat)) (cur : list cpp_param) :
  NoDup todo.*1 ->
  (forall k, k ∈ todo.*1 -> ends_in_digit k = false) ->
  (forall x, In x (map param_name cur) ->
     x ∈ todo.*1
     \/ (count_occ String.string_dec (map param_name cur) x = 1
         /\ settled_name todo x)) ->
  (forall k c, (k, c) ∈ todo ->
     count_occ String.string_dec (map param_name cur) k = c) ->
  NoDup (map param_name (fold_left rename_item todo cur)).
Proof.
  revert cur. induction todo as [|[k c] todo IH]; intros cur Hnodup Hkeys Hnames Hcounts.
  { cbn. apply NoDup_ListNoDup, (NoDup_count_occ' String.string_dec). intros x Hx.
    destruct (Hnames x Hx) as [Hin|[Hone _]]; [by apply elem_of_nil in Hin|done]. }
  pose proof Hnodup as [Hk Hnodup']%NoDup_cons.
  assert (forall k', k' ∈ todo.*1 -> ends_in_digit k' = false) as Hkeys'
    by (intros k' Hk'; apply Hkeys; by right).
  cbn [fold_left]. apply IH; [done|done| |]; unfold rename_item.
  - (* the names after the step *)
    destruct (Nat.eqb_spec c 1) as [->|Hc].
    + intros x Hx. destruct (Hnames x Hx) as [Hin|[Hone Hsettled]].
      * apply elem_of_cons in Hin as [->|Hin]; [|by left]. right. split.
        -- apply Hcounts. by left.
        -- exists k, "". rewrite append_nil_r. repeat split; try done.
           apply Hkeys. by left.
      * right. split; [done|by eapply settled_name_weaken].
    + intros x Hx. rewrite rename_params_count.
      pose proof (fresh_names_NoDup k 1
                    (count_occ String.string_dec (map param_name cur) k)) as Hfresh.
      apply NoDup_ListNoDup in Hfresh.
      destruct (in_dec String.string_dec x
                  (fresh_names k 1 (count_occ String.string_dec (map param_name cur) k)))
        as [Hnew|Hold].
      * right. destruct (fresh_names_elem _ _ _ _ Hnew) as [a ->].
        pose proof (fresh_name_not_in k c a todo _ Hnodup Hkeys Hnames) as Hnotin.
        apply (count_occ_not_In String.string_dec) in Hnotin.
        split.
        -- rewrite Hnotin. rewrite (proj1 (NoDup_count_occ' String.string_dec _) Hfresh _ Hnew).
           by case_decide.
        -- exists k, (str_of_nat a). repeat split; try done.
           ++ apply str_of_nat_digits.
           ++ apply Hkeys. by left.
      * apply (count_occ_not_In String.string_dec) in Hold as Hzero. rewrite Hzero.
        apply (Permutation_in _ (rename_params_names k 1 cur)) in Hx.
        apply in_app_or in Hx as [Hx|Hx]; [|done].
        apply list_elem_of_In, list_elem_of_filter in Hx as [Hne Hx%list_elem_of_In].
        rewrite decide_False by done. rewrite Nat.add_0_r.
        destruct (Hnames x Hx) as [Hin|[Hone Hsettled]].
        -- apply elem_of_cons in Hin as [?|Hin]; [done|by left].
        -- right. split; [done|by eapply settled_name_weaken].
  - (* the counts of the keys still to come *)
    intros k2 c2 Hin.
    assert (k2 ∈ todo.*1) as Hk2 by (by apply (list_elem_of_fmap_2 fst) in Hin).
    assert (k2 <> k) as Hne by (by intros ->).
    destruct (Nat.eqb_spec c 1) as [->|Hc]; [apply Hcounts; by right|].
    rewrite rename_params_count, decide_False by done.
    rewrite (Hcounts k2 c2) by (by right).
    assert (~ In k2 (fresh_names k 1 (count_occ String.string_dec (map param_name cur) k)))
      as Hnotin.
    { intros [a ->]%fresh_names_elem. apply Hkeys' in Hk2.
      by rewrite fresh_name_ends_in_digit in Hk2. }
    apply (count_occ_not_In String.string_dec) in Hnotin. lia.
Qed.

(** When no derived name ends in a digit, the renaming leaves the names of
    the parameters of an instruction pairwise distinct. *)
Lemma dedup_names_distinct (cpp_params : list cpp_param) :
  Forall (fun p => ends_in_digit (param_name p) = false) cpp_params ->
  NoDup (map param_name (dedup_names cpp_params)).
Proof.
  intros Hends. unfold dedup_names.
  apply (renaming_loop_distinct (Counter (map param_name cpp_params)) cpp_params).
  - apply Counter_NoDup.
  - intros k ([k' c] & -> & [_ Hin]%Counter_count)%list_elem_of_fmap_1.
    cbn. apply in_map_iff in Hin as (p & <- & Hp). rewrite Forall_forall in Hends.
    by apply Hends, list_elem_of_In.
  - intros x Hx. left. by apply Counter_key.
  - intros k c [-> _]%Counter_count. done.
Qed.

End Renaming.

(** X1.  At the level of an instruction: when no derived name of its
    operands ends in a digit, the parameter names of the signature are
    pairwise distinct. *)
Lemma instruction_names_distinct (g : grammar) (d : nat) (i : instruction)
    (ps : list cpp_param) :
  instruction_params g d i = Ok ps ->
  (forall o n, o ∈ Spec.operands_of i -> get_cpp_param_name o = Ok n ->
     ends_in_digit n = false) ->
  NoDup (map param_name ps).
Proof.
  intros (ps0 & Hps0 & ->)%instruction_params_inv Hnames.
  rewrite assign_defaults_names. apply dedup_names_distinct.
  apply map_result_ok in Hps0.
  eapply Forall2_Forall_r; [done|]. apply Forall_forall.
  intros o Ho p (_ & Hn & _)%get_cpp_param_inv. by eapply Hnames.
Qed.

(** * Further properties of the generator *)

(** ** The renaming of repeated names *)

Lemma instruction_names_distinct_witness :
  instruction_params example_grammar 1 repeated_operands_instruction
  = Ok [CppParam "IdRef" "operand1" ""; CppParam "IdRef" "operand2" "";
        CppParam "IdRef" "target" ""]
  /\ NoDup ["operand1"; "operand2"; "target"].
Proof.
  split; [reflexivity|].
  apply (instruction_names_distinct example_grammar 1 repeated_operands_instruction
           [CppParam "IdRef" "operand1" ""; CppParam "IdRef" "operand2" "";
            CppParam "IdRef" "target" ""]).
  - reflexivity.
  - intros o n Ho Hn.
    repeat (apply elem_of_cons in Ho as [Ho|Ho];
            [rewrite Ho in Hn; vm_compute in Hn; injection Hn as Hn;
             rewrite <- Hn; reflexivity|]).
    by apply elem_of_nil in Ho.
Defined.

Section RenamingShape.

Lemma append_assoc (s t u : string) : (s +:+ t) +:+ u = s +:+ t +:+ u.
Proof. induction s as [|c s IH]; [done|]. by rewrite !append_cons, IH. Qed.

Lemma all_chars_append (p : ascii -> bool) (s t : string) :
  all_chars p (s +:+ t) = all_chars p s && all_chars p t.
Proof.
  induction s as [|c s IH]; [done|]. rewrite append_cons. cbn.
  by rewrite IH, andb_assoc.
Qed.

Lemma numbered_from_refl (n : string) : numbered_from n n.
Proof. exists "". by rewrite append_nil_r. Qed.

Lemma numbered_from_trans (n m l : string) :
  numbered_from n m -> numbered_from m l -> numbered_from n l.
Proof.
  intros (s & Hs & ->) (t & Ht & ->). exists (s +:+ t).
  by rewrite all_chars_append, Hs, Ht, append_assoc.
Qed.

Lemma Forall2_numbered_refl (names : list string) :
  Forall2 numbered_from names names.
Proof. induction names; constructor; [apply numbered_from_refl|done]. Qed.

Lemma rename_params_numbered (k : string) (nr : nat) (ps : list cpp_param) :
  Forall2 numbered_from (map param_name ps) (map param_name (rename_params k nr ps)).
Proof.
  revert nr. induction ps as [|p ps IH]; intros nr; [constructor|].
  cbn [rename_params map].
  destruct (String.eqb_spec (param_name p) k) as [->|_]; cbn [map]; constructor;
    try apply IH; [|apply numbered_from_refl].
  exists (str_of_nat nr). split; [apply str_of_nat_digits|done].
Qed.

Lemma rename_loop_numbered (items : list (string * nat)) (ps : list cpp_param) :
  Forall2 numbered_from (map param_name ps)
    (map param_name (fold_left rename_item items ps)).
Proof.
  revert ps. induction items as [|[k c] items IH]; intros ps;
    [apply Forall2_numbered_refl|].
  cbn [fold_left].
  eapply (Forall2_trans numbered_from numbered_from numbered_from);
    [apply numbered_from_trans| |apply IH].
  unfold rename_item. destruct (c =? 1);
    [apply Forall2_numbered_refl|apply rename_params_numbered].
Qed.

Lemma Forall2_on_map {A B C} (P : A -> C -> Prop) (f : B -> C)
    (l : list A) (k : list B) :
  Forall2 P l (map f k) <-> Forall2 (fun x y => P x (f y)) l k.
Proof. apply Forall2_fmap_r. Qed.

Lemma dedup_names_numbered (ps : list cpp_param) :
  Forall2 numbered_from (map param_name ps) (map param_name (dedup_names ps)).
Proof. apply rename_loop_numbered. Qed.

(** X2.  The parameters of an instruction are one for each operand, in the
    order of the operands; each has the resolved type of its operand, and as
    its name the derived name of the operand, followed by decimal digits
    when the renaming touched it. *)
Theorem instruction_params_follow_operands (g : grammar) (d : nat)
    (i : instruction) (ps : list cpp_param) :
  instruction_params g d i = Ok ps ->
  Forall2 (fun o p => get_cpp_type g d o = Ok (param_type p))
    (Spec.operands_of i) ps
  /\ Forall2 (fun o p => exists n,
                get_cpp_param_name o = Ok n /\ numbered_from n (param_name p))
       (Spec.operands_of i) ps.
Proof.
  intros (ps0 & Hps0 & ->)%instruction_params_inv.
  apply map_result_ok in Hps0. split.
  - apply (Forall2_on_map (fun o t => get_cpp_type g d o = Ok t) param_type).
    rewrite assign_defaults_types, dedup_names_types.
    apply Forall2_on_map. eapply Forall2_impl; [done|].
    by intros o p (? & _)%get_cpp_param_inv.
  - assert (Forall2 (fun o n => get_cpp_param_name o = Ok n)
              (Spec.operands_of i) (map param_name ps0)) as Hnames.
    { apply Forall2_on_map. eapply Forall2_impl; [done|].
      by intros o p (_ & ? & _)%get_cpp_param_inv. }
    apply (Forall2_on_map
             (fun o m => exists n, get_cpp_param_name o = Ok n /\ numbered_from n m)
             param_name).
    rewrite assign_defaults_names.
    eapply (Forall2_trans _ numbered_from); [|done|apply dedup_names_numbered].
    intros o n m Hn Hm. by exists n.
Qed.

End RenamingShape.

Section RenamingIdentity.

Lemma rename_loop_ones (items : list (string * nat)) (ps : list cpp_param) :
  Forall (fun item => item.2 = 1) items -> fold_left rename_item items ps = ps.
Proof.
  induction 1 as [|[k c] items Hc _ IH]; [done|]. cbn in Hc. subst c. done.
Qed.

Lemma Counter_ones (names : list string) :
  NoDup names -> Forall (fun item => item.2 = 1) (Counter names).
Proof.
  intros Hnodup%NoDup_ListNoDup. apply Forall_forall.
  intros [k c] [-> Hin]%Counter_count. cbn.
  by apply (NoDup_count_occ' String.string_dec).
Qed.

Lemma dedup_names_distinct_id (ps : list cpp_param) :
  NoDup (map param_name ps) -> dedup_names ps = ps.
Proof. intros Hnodup. by apply rename_loop_ones, Counter_ones. Qed.

(** X3.  When the derived names of the operands of an instruction are
    pairwise distinct, the renaming changes nothing: the names of the
    parameters are the derived names, in order. *)
Theorem distinct_names_kept (g : grammar) (d : nat) (i : instruction)
    (ps : list cpp_param) (names : list string) :
  instruction_params g d i = Ok ps ->
  map_result get_cpp_param_name (Spec.operands_of i) = Ok names ->
  NoDup names ->
  map param_name ps = names.
Proof.
  intros (ps0 & Hps0 & ->)%instruction_params_inv Hnames Hnodup.
  assert (map_result get_cpp_param_name (Spec.operands_of i)
          = Ok (map param_name ps0)) as Hnames0.
  { apply map_result_ok, Forall2_on_map. apply map_result_ok in Hps0.
    eapply Forall2_impl; [done|]. by intros o p (_ & ? & _)%get_cpp_param_inv. }
  rewrite Hnames in Hnames0. injection Hnames0 as ->.
  by rewrite assign_defaults_names, dedup_names_distinct_id.
Qed.

End RenamingIdentity.

Lemma distinct_names_kept_witness :
  map param_name ext_inst_params = ["idResultType"; "idResult"; "set"; "operands"].
Proof.
  apply (distinct_names_kept example_grammar 1 ext_inst_instruction ext_inst_params).
  - reflexivity.
  - reflexivity.
  - apply (bool_decide_unpack _). vm_compute. exact I.
Defined.

(** ** Default values and the text tests on types *)

Section DefaultsAndTexts.

Variable g : grammar.
Variable d : nat.

(** X4.  A default value is only ever given to a parameter whose type text
    starts like an optional or a vector type, and it is the empty
    initializer: every parameter has either no default value or [ = {}]. *)
Theorem defaults_only_on_optional_or_vector (i : instruction) (ps : list cpp_param) :
  instruction_params g d i = Ok ps ->
  Forall (fun p =>
            (default_value p = "" \/ default_value p = " = {}")
            /\ (default_value p = " = {}" ->
                is_optional_or_vector (param_type p) = true)) ps.
Proof.
  intros (ps1 & -> & _ & Hdef)%instruction_params_types.
  apply Forall_forall. intros p [n Hn]%list_elem_of_lookup_1.
  apply assign_defaults_lookup_inv in Hn as (p1 & Hp1 & ->).
  rewrite Forall_forall in Hdef.
  pose proof (Hdef p1 (list_elem_of_lookup_2 _ _ _ Hp1)) as Hp1def.
  destruct (forallb optional_or_vector_param (drop n ps1)) eqn:Hrun.
  - split; [by right|]. intros _.
    rewrite (drop_S _ _ _ Hp1) in Hrun. cbn in Hrun.
    by apply andb_prop in Hrun as [Hp _].
  - split; [by left|]. by rewrite Hp1def.
Qed.

(** X5.  The two tests on the text of a type give the answer of the operand
    itself (simple or not, optional or sequence or not) for every operand
    that carries a quantifier or whose kind is not an Id kind, whatever the
    names of the kinds are; only the type text of an unquantified Id
    operand, which is the kind name, can mislead them. *)
Theorem text_tests_agree (o : operand) (t : string) (info : operand_kind) :
  get_cpp_type g d o = Ok t ->
  operands g !! op_kind o = Some info ->
  category info <> "Id" \/ op_quantifier o <> None ->
  is_simple_type t = Spec.is_simple_operand g o
  /\ is_optional_or_vector t = Spec.is_optional_or_sequence o.
Proof.
  intros (t0 & Ht0 & Hq)%get_cpp_type_inv Hk Hcase.
  unfold Spec.is_simple_operand, Spec.is_optional_or_sequence.
  destruct o as [k q n]. cbn [op_kind op_quantifier] in *.
  destruct Hq as [[-> ->]|[[-> ->]|[-> ->]]]; [|done..].
  destruct Hcase as [Hnotid|?]; [|done].
  apply base_type_shape in Ht0 as (info' & Hk' & Hshape).
  rewrite Hk in Hk'. injection Hk' as <-. rewrite Hk.
  destruct Hshape as [[Hcat ->]|[[Hcat Hlit]|[[Hcat ->]|[[Hcat ->]|[Hcat [ts ->]]]]]];
    [done|rewrite Hcat..]; [|done..].
  apply literal_dict_cases in Hlit.
  repeat (apply elem_of_cons in Hlit as [[= -> ->]|Hlit]; [done|]).
  by apply elem_of_nil in Hlit.
Qed.

End DefaultsAndTexts.

Lemma defaults_only_on_optional_or_vector_witness :
  Forall (fun p =>
            (default_value p = "" \/ default_value p = " = {}")
            /\ (default_value p = " = {}" ->
                is_optional_or_vector (param_type p) = true)) ext_inst_params.
Proof.
  apply (defaults_only_on_optional_or_vector example_grammar 1 ext_inst_instruction).
  reflexivity.
Defined.

Lemma text_tests_agree_witness :
  is_simple_type "std::optional<spv::MemoryAccessMask>" = false
  /\ is_optional_or_vector "std::optional<spv::MemoryAccessMask>" = true.
Proof.
  apply (text_tests_agree example_grammar 1
           (Operand "MemoryAccess" (Some "?") None)
           "std::optional<spv::MemoryAccessMask>"
           (OperandKind "MemoryAccess" "BitEnum" None)).
  - reflexivity.
  - reflexivity.
  - left. discriminate.
Defined.

(** ** The Name Deriver on raw names *)

Section RawNames.

Lemma lower_char_word (c : ascii) : is_word_char (lower_char c) = is_word_char c.
Proof. by destruct c as [[] [] [] [] [] [] [] []]. Qed.

Lemma filter_chars_all (p : ascii -> bool) (s : string) :
  all_chars p (filter_chars p s) = true.
Proof.
  induction s as [|c s IH]; [done|]. cbn.
  destruct (p c) eqn:Hc; [|done]. cbn. by rewrite Hc.
Qed.

Lemma decapitalize_word (s : string) :
  all_chars is_word_char s = true -> all_chars is_word_char (decapitalize s) = true.
Proof.
  unfold decapitalize. destruct (isupper s); [done|].
  destruct s as [|c s]; [done|]. rewrite lower_first_cons. cbn.
  by rewrite lower_char_word.
Qed.

Lemma underscore_not_reserved (s : string) : is_reserved (String "_"%char s) = false.
Proof.
  unfold is_reserved. apply bool_decide_eq_false. unfold reserved_cpp_keywords.
  intros Hin.
  repeat (apply elem_of_cons in Hin as [Hin|Hin]; [discriminate Hin|]).
  by apply elem_of_nil in Hin.
Qed.

Lemma plain_name_word (name : string) :
  all_chars is_word_char (plain_name name) = true.
Proof.
  unfold plain_name, Spec.escape_reserved.
  pose proof (decapitalize_word _ (filter_chars_all is_word_char
    (join "" (map capitalize (split_space name))))) as Hword.
  unfold Re.sub_nonword. by destruct (is_reserved _).
Qed.

Lemma plain_name_not_reserved (name : string) : is_reserved (plain_name name) = false.
Proof.
  unfold plain_name, Spec.escape_reserved.
  destruct (is_reserved (decapitalize _)) eqn:Hres; [|done].
  apply underscore_not_reserved.
Qed.

(** Whatever the family of a raw name, the result is made by the plain
    steps. *)
Lemma named_path_plain (name k r : string) (q : option string) :
  get_cpp_param_name (Operand k q (Some name)) = Ok r ->
  exists x, r = plain_name x.
Proof.
  unfold get_cpp_param_name. cbn [op_name].
  destruct (if contains newline name then _ else _) as [n1|]; [|done]. cbn [bind].
  destruct (if contains "..." _ then _ else _) as [n2|]; [|done]. cbn [bind].
  intros [= <-]. by exists n2.
Qed.

(** X6.  The name derived from a raw name consists of word characters only
    and is never a reserved word of C++. *)
Theorem named_result_word_not_reserved (name k r : string) (q : option string) :
  get_cpp_param_name (Operand k q (Some name)) = Ok r ->
  all_chars is_word_char r = true /\ is_reserved r = false.
Proof.
  intros [x ->]%named_path_plain.
  split; [apply plain_name_word|apply plain_name_not_reserved].
Qed.

End RawNames.

Lemma named_result_word_not_reserved_witness :
  all_chars is_word_char "_class" = true /\ is_reserved "_class" = false.
Proof.
  apply (named_result_word_not_reserved "'Class'" "IdRef" "_class" None).
  reflexivity.
Defined.

Section NameFamilies.

Lemma word_or_space_not_quote (c : ascii) :
  Re.is_word_or_space c = true -> Ascii.eqb c "'" = false.
Proof. by destruct c as [[] [] [] [] [] [] [] []]. Qed.

Lemma word_is_word_or_space (c : ascii) :
  is_word_char c = true -> Re.is_word_or_space c = true.
Proof. unfold Re.is_word_or_space. by intros ->. Qed.

(** Text of word characters and spaces is in none of the three families. *)
Lemma word_space_no_family (x : string) :
  all_chars Re.is_word_or_space x = true ->
  contains newline x = false
  /\ Re.match_ellipsis_group x = false
  /\ contains "..." x = false.
Proof.
  intros Hx. repeat split.
  - unfold newline. by apply (all_chars_contains Re.is_word_or_space).
  - destruct x as [|c x]; [done|]. cbn in Hx. apply andb_prop in Hx as [Hc _].
    cbn. by rewrite (word_or_space_not_quote _ Hc).
  - by apply (all_chars_contains Re.is_word_or_space).
Qed.

Lemma plain_path_words (x k : string) (q : option string) :
  all_chars Re.is_word_or_space x = true ->
  get_cpp_param_name (Operand k q (Some x)) = Ok (plain_name x).
Proof.
  intros (Hnl & Hgroup & Hdots)%word_space_no_family.
  unfold get_cpp_param_name. cbn [op_name].
  rewrite Hnl. cbn [bind]. rewrite Hgroup, Hdots. done.
Qed.

Lemma span_all (p : ascii -> bool) (s run rest : string) :
  Re.span p s = (run, rest) -> all_chars p run = true.
Proof.
  revert run rest. induction s as [|c s IH]; intros run rest; cbn.
  - by intros [= <- <-].
  - destruct (p c) eqn:Hc; [|by intros [= <- <-]].
    destruct (Re.span p s) as [run' rest']. intros [= <- <-]. cbn.
    rewrite Hc. by eapply IH.
Qed.

Lemma search_quoted_group_all (s label : string) :
  Re.search_quoted_group s = Some label ->
  all_chars Re.is_word_or_space label = true.
Proof.
  induction s as [|c s IH]; [done|]. cbn.
  destruct (Ascii.eqb c "'"); [|apply IH].
  destruct (Re.span Re.is_word_or_space s) as [run rest] eqn:Hspan.
  destruct (startswith rest "', "); [|apply IH].
  intros [= <-]. by eapply span_all.
Qed.

Lemma sub_space_digit_cons (c1 c2 : ascii) (s : string) :
  Re.sub_space_digit (String c1 (String c2 s))
  = if Ascii.eqb c1 " " && is_digit_char c2 then Re.sub_space_digit s
    else String c1 (Re.sub_space_digit (String c2 s)).
Proof. done. Qed.

Lemma sub_space_digit_all (p : ascii -> bool) (s : string) :
  all_chars p s = true -> all_chars p (Re.sub_space_digit s) = true.
Proof.
  assert (forall n s, String.length s <= n ->
            all_chars p s = true -> all_chars p (Re.sub_space_digit s) = true) as Hlen.
  { clear s. induction n as [|n IH]; intros s Hn Hs.
    - destruct s; [done|cbn in Hn; lia].
    - destruct s as [|c1 [|c2 s]]; [done..|].
      rewrite sub_space_digit_cons.
      change (all_chars p (String c1 (String c2 s)))
        with (p c1 && all_chars p (String c2 s)) in Hs.
      apply andb_prop in Hs as [Hc1 Hs]. cbn in Hn.
      destruct (Ascii.eqb c1 " " && is_digit_char c2).
      + apply IH; [lia|]. cbn in Hs. by apply andb_prop in Hs as [_ ?].
      + change (p c1 && all_chars p (Re.sub_space_digit (String c2 s)) = true).
        rewrite Hc1. apply IH; [cbn; lia|done]. }
  by apply (Hlen (String.length s)).
Qed.

Lemma rev_app_all (p : ascii -> bool) (s t : string) :
  all_chars p (String.rev_app s t) = all_chars p s && all_chars p t.
Proof.
  revert t. induction s as [|c s IH]; intros t; [done|]. cbn.
  rewrite IH. cbn. by destruct (p c), (all_chars p s).
Qed.

Lemma findall_words_go_all (cur s : string) :
  all_chars is_word_char cur = true ->
  Forall (fun w => all_chars is_word_char w = true) (Re.findall_words_go cur s).
Proof.
  assert (forall cur, all_chars is_word_char cur = true ->
            all_chars is_word_char (String.rev cur) = true) as Hrev.
  { intros cur' Hcur. unfold String.rev. by rewrite rev_app_all, Hcur. }
  revert cur. induction s as [|c s IH]; intros cur Hcur; cbn.
  - destruct cur; [constructor|]. constructor; [by apply Hrev|constructor].
  - destruct (is_word_char c) eqn:Hc.
    + apply IH. cbn. by rewrite Hc.
    + destruct cur; [by apply IH|]. constructor; [by apply Hrev|by apply IH].
Qed.

Lemma join_all (p : ascii -> bool) (sep : string) (ws : list string) :
  all_chars p sep = true ->
  Forall (fun w => all_chars p w = true) ws ->
  all_chars p (join sep ws) = true.
Proof.
  intros Hsep. unfold join. induction 1 as [|w ws Hw Hws IH]; [done|].
  destruct ws as [|w' ws]; [done|].
  change (String.concat sep (w :: w' :: ws))
    with (w +:+ sep +:+ String.concat sep (w' :: ws)).
  by rewrite !all_chars_append, Hw, Hsep, IH.
Qed.

Lemma all_chars_weaken (p q : ascii -> bool) (ws : list string) :
  (forall c, p c = true -> q c = true) ->
  Forall (fun w => all_chars p w = true) ws ->
  Forall (fun w => all_chars q w = true) ws.
Proof.
  intros Hpq Hws. eapply Forall_impl; [done|]. intros w. by apply all_chars_impl.
Qed.

(** X7.  The three families of raw names exclude one another in effect:
    the tests run one after the other, but the text a family produces is
    never taken up by a later one.  A raw name with a line break is
    reduced to its first quoted label (or aborts with [AttributeError]
    when there is none); otherwise a quoted group that ends in an ellipsis
    gives its words; otherwise a name with an ellipsis gives its one word
    without digits (or aborts with [AssertionError]); every other name is
    taken as it is.  The plain steps finish all four cases. *)
Theorem name_families (name k : string) (q : option string) :
  get_cpp_param_name (Operand k q (Some name))
  = if contains newline name then
      match Re.search_quoted_group name with
      | None => Raise AttributeError
      | Some label => Ok (plain_name (Re.sub_space_digit label +:+ "s"))
      end
    else if Re.match_ellipsis_group name then
      Ok (plain_name (join " " (Re.findall_words name) +:+ "s"))
    else if contains "..." name then
      match distinct (map strip (map Re.sub_digits (Re.findall_words name))) with
      | [word] => Ok (plain_name (word +:+ "s"))
      | _ => Raise AssertionError
      end
    else Ok (plain_name name).
Proof.
  unfold get_cpp_param_name. cbn [op_name].
  destruct (contains newline name).
  - destruct (Re.search_quoted_group name) as [label|] eqn:Hlabel; [|done].
    cbn [bind].
    assert (all_chars Re.is_word_or_space (Re.sub_space_digit label +:+ "s") = true)
      as (_ & -> & ->)%word_space_no_family; [|done].
    rewrite all_chars_append, sub_space_digit_all; [done|].
    by eapply search_quoted_group_all.
  - cbn [bind]. destruct (Re.match_ellipsis_group name).
    2:{ destruct (contains "..." name); [|done].
        by destruct (distinct _) as [|word [|]]. }
    assert (all_chars Re.is_word_or_space
              (join " " (Re.findall_words name) +:+ "s") = true)
      as (_ & _ & ->)%word_space_no_family; [|done].
    rewrite all_chars_append, join_all; [done..|].
    eapply all_chars_weaken; [apply word_is_word_or_space|].
    by apply findall_words_go_all.
Qed.

End NameFamilies.

Section CamelCase.

Lemma split_space_app (w rest : string) :
  all_chars (fun c => negb (Ascii.eqb c " ")) w = true ->
  split_space (w +:+ String " "%char rest) = w :: split_space rest.
Proof.
  induction w as [|c w IH]; [done|]. rewrite append_cons. cbn.
  intros [Hc Hw]%andb_prop. apply negb_true_iff in Hc. rewrite Hc.
  by rewrite IH.
Qed.

(** Splitting on spaces undoes joining with spaces. *)
Lemma split_space_join (ws : list string) :
  ws <> [] ->
  Forall (fun w => all_chars (fun c => negb (Ascii.eqb c " ")) w = true) ws ->
  split_space (join " " ws) = ws.
Proof.
  intros Hne Hws. unfold join.
  induction Hws as [|w ws Hw Hws IH]; [done|].
  destruct ws as [|w' ws]; [by apply split_space_no_space|].
  change (String.concat " " (w :: w' :: ws))
    with (w +:+ String " "%char (String.concat " " (w' :: ws))).
  rewrite split_space_app by done. by rewrite IH.
Qed.

(** X8.  A raw name made of identifiers separated by single spaces comes
    out in camel case: each word with its first letter capitalized, the
    words joined, the result decapitalized and escaped. *)
Theorem camel_case (ws : list string) (k : string) (q : option string) :
  ws <> [] ->
  Forall (fun w => Spec.is_identifier w = true) ws ->
  get_cpp_param_name (Operand k q (Some (join " " ws)))
  = Ok (Spec.escape_reserved (decapitalize (join "" (map capitalize ws)))).
Proof.
  intros Hne Hws.
  rewrite plain_path_words.
  - unfold plain_name. rewrite split_space_join; [|done|].
    + unfold Re.sub_nonword. rewrite all_chars_filter; [done|].
      apply join_all; [done|]. apply Forall_fmap.
      eapply Forall_impl; [done|]. intros w. apply capitalize_identifier.
    + eapply (all_chars_weaken is_word_char); [|done].
      apply word_char_not_space.
  - apply join_all; [done|].
    eapply (all_chars_weaken is_word_char); [|done].
    apply word_is_word_or_space.
Qed.

Lemma search_quoted_group_no_quote (s : string) :
  all_chars (fun c => negb (Ascii.eqb c "'")) s = true ->
  Re.search_quoted_group s = None.
Proof.
  induction s as [|c s IH]; [done|]. cbn.
  intros [Hc Hs]%andb_prop. apply negb_true_iff in Hc. rewrite Hc. by apply IH.
Qed.

(** X9.  A raw name with a line break and without a quote has no quoted
    label to take: the run aborts with [AttributeError]. *)
Theorem line_break_without_label (name k : string) (q : option string) :
  contains newline name = true ->
  all_chars (fun c => negb (Ascii.eqb c "'")) name = true ->
  get_cpp_param_name (Operand k q (Some name)) = Raise AttributeError.
Proof.
  intros Hnl Hquote. unfold get_cpp_param_name. cbn [op_name].
  by rewrite Hnl, search_quoted_group_no_quote.
Qed.

End CamelCase.

Lemma camel_case_witness :
  get_cpp_param_name (Operand "IdRef" None (Some "Result Type")) = Ok "resultType".
Proof.
  apply (camel_case ["Result"; "Type"] "IdRef" None).
  - discriminate.
  - repeat constructor.
Defined.

Lemma line_break_without_label_witness :
  get_cpp_param_name (Operand "IdRef" None (Some ("Image" +:+ newline +:+ "Operands")))
  = Raise AttributeError.
Proof.
  apply (line_break_without_label ("Image" +:+ newline +:+ "Operands") "IdRef" None).
  - reflexivity.
  - reflexivity.
Defined.

(** ** The Type Resolver: depth, order of the bases, cycles *)

Section ResolverDepth.

Variable g : grammar.

Lemma map_result_stable {X Y} (f f' : X -> result Y) (xs : list X) (r : result (list Y)) :
  (forall x r', f x = r' -> r' <> Raise RecursionError -> f' x = r') ->
  map_result f xs = r -> r <> Raise RecursionError -> map_result f' xs = r.
Proof.
  intros Hf. revert r. induction xs as [|x xs IH]; intros r; [done|]. cbn.
  destruct (f x) as [y|e] eqn:Hx.
  - rewrite (Hf x (Ok y)) by done. cbn [bind].
    destruct (map_result f xs) as [ys|e] eqn:Hxs.
    + intros Hr _. by rewrite (IH (Ok ys) eq_refl).
    + cbn [bind]. intros <- He. by rewrite (IH (Raise e) eq_refl He).
  - cbn [bind]. intros <- He. rewrite (Hf x (Raise e) Hx); [done|].
    intros [= ->]. by apply He.
Qed.

(** One more level of depth keeps every result but [RecursionError]. *)
Lemma get_base_cpp_type_stable (d : nat) (k : string) (r : result string) :
  get_base_cpp_type g d k = r -> r <> Raise RecursionError ->
  get_base_cpp_type g (S d) k = r.
Proof.
  revert k r. induction d as [|d IH]; intros k r; [by intros <-|].
  rewrite (get_base_cpp_type_S g (S d)), (get_base_cpp_type_S g d).
  destruct (getitem (operands g) k) as [info|e]; [|done]. cbn [bind].
  unfold resolve_step.
  repeat (destruct (String.eqb (category info) _); [done|]).
  destruct (String.eqb (category info) "Composite"); [|done].
  destruct (bases info) as [bs|]; [|done]. cbn [bind].
  assert (forall (x : string) (r' : result string),
            (let* x_info := getitem (operands g) x in
             get_base_cpp_type g d (kind x_info)) = r' ->
            r' <> Raise RecursionError ->
            (let* x_info := getitem (operands g) x in
             get_base_cpp_type g (S d) (kind x_info)) = r') as Hbase.
  { intros x r' Hx Hr'. destruct (getitem (operands g) x); [by apply IH|done]. }
  destruct (map_result
              (fun x => let* x_info := getitem (operands g) x in
                        get_base_cpp_type g d (kind x_info)) bs) as [ts|e] eqn:Hbs.
  - intros <- _. by rewrite (map_result_stable _ _ bs (Ok ts) Hbase Hbs).
  - cbn [bind]. intros <- He.
    rewrite (map_result_stable _ _ bs (Raise e) Hbase Hbs); [done|].
    intros [= ->]. by apply He.
Qed.

(** X10.  The recursion depth matters for [RecursionError] only: a type,
    or any other exception, that type resolution gives at some depth is
    what it gives at every larger depth. *)
Theorem depth_matters_for_recursion_error_only (d d' : nat) (o : operand)
    (r : result string) :
  get_cpp_type g d o = r -> r <> Raise RecursionError -> d <= d' ->
  get_cpp_type g d' o = r.
Proof.
  intros Hr Hrec Hle. induction Hle as [|d' _ IH]; [done|].
  revert IH. unfold get_cpp_type. cbv zeta.
  destruct (get_base_cpp_type g d' (op_kind o)) as [t|e] eqn:Hbase.
  - by rewrite (get_base_cpp_type_stable d' _ (Ok t) Hbase).
  - cbn [bind]. intros <-.
    rewrite (get_base_cpp_type_stable d' _ (Raise e) Hbase); [done|].
    intros [= ->]. by apply Hrec.
Qed.

Lemma map_result_first_raise {X Y} (f : X -> result Y) (xs1 xs2 : list X) (x : X)
    (ys : list Y) (e : exn) :
  map_result f xs1 = Ok ys -> f x = Raise e ->
  map_result f (xs1 ++ x :: xs2) = Raise e.
Proof.
  revert ys. induction xs1 as [|x1 xs1 IH]; intros ys; cbn.
  - intros _ ->. done.
  - destruct (f x1); [|done]. cbn.
    destruct (map_result f xs1) as [ys1|] eqn:Hxs1; [|done]. cbn.
    intros _ Hx. by rewrite (IH ys1).
Qed.

(** X11.  The bases of a Composite kind are resolved in the declared
    order, and the first one that fails ends the run with its exception:
    a base that is not in the catalog with [KeyError] on its name, a base
    that raises with what it raises.  The bases after it are not looked
    at. *)
Theorem composite_first_error (d : nat) (k b : string) (info : operand_kind)
    (bs1 bs2 ts : list string) (e : exn) :
  operands g !! k = Some info ->
  category info = "Composite" ->
  bases info = Some (bs1 ++ b :: bs2) ->
  Forall2 (fun x t => get_base_cpp_type g d x = Ok t) bs1 ts ->
  (operands g !! b = None /\ e = KeyError b)
  \/ (is_Some (operands g !! b) /\ get_base_cpp_type g d b = Raise e) ->
  get_base_cpp_type g (S d) k = Raise e.
Proof.
  intros Hk Hcat Hbs Hts Hb. rewrite get_base_cpp_type_S. unfold getitem at 1.
  rewrite Hk. cbn [bind]. unfold resolve_step. rewrite Hcat, Hbs.
  cbn [String.eqb Ascii.eqb Bool.eqb bind].
  rewrite (map_result_first_raise _ bs1 bs2 b ts e); [done| |].
  - apply map_result_ok. eapply Forall2_impl; [done|].
    intros x t Hx. by apply resolve_base_ok.
  - rewrite resolve_base_eq. destruct Hb as [[-> ->]|[[info' ->] Hb]]; done.
Qed.

Lemma map_result_raise {X Y} (f : X -> result Y) (xs : list X) :
  Exists (fun x => is_raise (f x)) xs -> is_raise (map_result f xs).
Proof.
  induction 1 as [x xs [e He]|x xs _ [e He]]; cbn.
  - rewrite He. by exists e.
  - destruct (f x); cbn; [rewrite He|]; by eexists.
Qed.

(** X12.  A Composite kind that has itself among its bases never gets a
    type: at every recursion depth its resolution raises. *)
Theorem self_reference_never_resolves (k : string) (info : operand_kind)
    (bs : list string) :
  operands g !! k = Some info ->
  category info = "Composite" ->
  bases info = Some bs ->
  k ∈ bs ->
  forall d, is_raise (get_base_cpp_type g d k).
Proof.
  intros Hk Hcat Hbs Hin d. induction d as [|d IH]; [by eexists|].
  rewrite get_base_cpp_type_S. unfold getitem at 1.
  rewrite Hk. cbn [bind]. unfold resolve_step. rewrite Hcat, Hbs.
  cbn [String.eqb Ascii.eqb Bool.eqb bind].
  destruct (map_result_raise
              (fun x => let* x_info := getitem (operands g) x in
                        get_base_cpp_type g d (kind x_info)) bs) as [e He].
  - apply Exists_exists. exists k. split; [done|].
    rewrite resolve_base_eq, Hk. exact IH.
  - rewrite He. by exists e.
Qed.

End ResolverDepth.

Lemma depth_matters_for_recursion_error_only_witness :
  get_cpp_type example_grammar 9 (Operand "PairIdRefLiteralInteger" (Some "*") None)
  = Ok "std::vector<std::tuple<IdRef, uint32_t>>".
Proof.
  apply (depth_matters_for_recursion_error_only example_grammar 2 9
           (Operand "PairIdRefLiteralInteger" (Some "*") None)).
  - reflexivity.
  - discriminate.
  - lia.
Defined.

Lemma composite_first_error_witness :
  get_base_cpp_type broken_bases_grammar 2 "Triple" = Raise (KeyError "Absent").
Proof.
  apply (composite_first_error broken_bases_grammar 1 "Triple" "Absent"
           (OperandKind "Triple" "Composite" (Some ["IdRef"; "Absent"; "Odd"]))
           ["IdRef"] ["Odd"] ["IdRef"] (KeyError "Absent")).
  - reflexivity.
  - reflexivity.
  - reflexivity.
  - repeat constructor.
  - left. split; reflexivity.
Defined.

Lemma self_reference_never_resolves_witness :
  is_raise (get_base_cpp_type broken_bases_grammar 7 "Loop").
Proof.
  apply (self_reference_never_resolves broken_bases_grammar "Loop"
           (OperandKind "Loop" "Composite" (Some ["IdRef"; "Loop"]))
           ["IdRef"; "Loop"]).
  - reflexivity.
  - reflexivity.
  - reflexivity.
  - apply (bool_decide_unpack _). vm_compute. exact I.
Defined.

(** ** The catalog of operand kinds *)

Section Catalog.

Lemma dict_snoc {V} (pairs : list (string * V)) (k : string) (v : V) :
  dict (pairs ++ [(k, v)]) = <[k := v]> (dict pairs).
Proof. unfold dict. by rewrite fold_left_app. Qed.

(** X13.  The catalog maps a kind name to the last entry of the grammar
    with that kind: a later entry replaces an earlier one, and a name
    without an entry is not in the catalog. *)
Theorem catalog_last_entry (g : grammar) (k : string) :
  operands g !! k = last (filter (fun x => kind x = k) (operand_kinds g)).
Proof.
  unfold operands. generalize (operand_kinds g). intros entries.
  induction entries as [|x entries IH] using rev_ind; [done|].
  rewrite map_app, filter_app. cbn [map]. rewrite dict_snoc.
  rewrite filter_cons, filter_nil. cbn [fst snd].
  destruct (decide (kind x = k)) as [<-|Hne].
  - by rewrite lookup_insert_eq, last_snoc.
  - by rewrite lookup_insert_ne, app_nil_r.
Qed.

End Catalog.

(** A kind listed twice resolves as its last entry says. *)
Lemma catalog_repeated_kind :
  operands repeated_kind_grammar !! "IdRef" = Some (OperandKind "IdRef" "Id" None)
  /\ get_base_cpp_type repeated_kind_grammar 1 "IdRef" = Ok "IdRef".
Proof. by split. Qed.

(** ** The order of the output for every grammar *)

Section StableOrder.

Context {A : Type} (key : A -> string).

Lemma ltb_ne (s t : string) : String.ltb s t = true -> s <> t.
Proof.
  intros Hlt ->. unfold String.ltb in Hlt.
  pose proof (String.compare_antisym t t) as Hanti.
  destruct (String.compare t t); done.
Qed.

(** The sort is stable: the elements with one key keep their order. *)
Lemma insert_sorted_stable (k : string) (x : A) (xs : list A) :
  filter (fun y => key y = k) (insert_sorted key x xs)
  = filter (fun y => key y = k) (x :: xs).
Proof.
  induction xs as [|y ys IH]; [done|]. cbn [insert_sorted].
  destruct (String.ltb (key y) (key x)) eqn:Hlt; [|done].
  apply ltb_ne in Hlt.
  rewrite (filter_cons _ y), IH, !(filter_cons _ x), (filter_cons _ y).
  destruct (decide (key x = k)) as [Hx|Hx], (decide (key y = k)) as [Hy|Hy];
    try done. congruence.
Qed.

Lemma sorted_stable (k : string) (xs : list A) :
  filter (fun y => key y = k) (sorted key xs) = filter (fun y => key y = k) xs.
Proof.
  induction xs as [|x xs IH]; [done|]. cbn [sorted foldr].
  rewrite insert_sorted_stable, !filter_cons. fold (sorted key xs).
  by rewrite IH.
Qed.

Lemma sorted_keys_le (xs : list A) :
  StronglySorted (fun a b => String.leb a b = true) (map key (sorted key xs)).
Proof.
  pose proof (sorted_sorted key xs) as Hsorted.
  induction Hsorted as [|x ys _ IH Hx]; [constructor|]. cbn.
  constructor; [done|]. by apply Forall_fmap.
Qed.

End StableOrder.

Section WholeRun.

Variable g : grammar.
Variable d : nat.

(** X14.  For every grammar, also one that repeats an opname, the text of
    the builder functions takes every instruction once, in the order of
    the opnames from smaller to larger, and instructions with the same
    opname in the order in which the grammar lists them. *)
Theorem generated_code_order :
  exists ins,
    ins ≡ₚ instructions g
    /\ StronglySorted (fun a b => String.leb a b = true) (map opname ins)
    /\ (forall name,
          filter (fun i => opname i = name) ins
          = filter (fun i => opname i = name) (instructions g))
    /\ generated_code g d
       = (let* codes := map_result (get_instruction_code g d) ins in
          Ok (join newline codes)).
Proof.
  exists (sorted opname (instructions g)).
  split; [apply sorted_perm|]. split; [apply sorted_keys_le|].
  split; [|done]. intros name. apply sorted_stable.
Qed.

Lemma map_result_raise_iff {X Y} (f : X -> result Y) (xs : list X) :
  is_raise (map_result f xs) <-> exists x, x ∈ xs /\ is_raise (f x).
Proof.
  split.
  - induction xs as [|x xs IH]; cbn; [by intros [? ?]|].
    destruct (f x) as [y|e] eqn:Hx.
    + cbn. destruct (map_result f xs) as [ys|e']; [by intros [? ?]|].
      intros _. destruct IH as (x' & Hin & Hraise); [by eexists|].
      exists x'. split; [by right|done].
    + intros _. exists x. split; [by left|]. rewrite Hx. by eexists.
  - intros (x & Hin & Hraise). apply map_result_raise, Exists_exists. eauto.
Qed.

Lemma get_instruction_code_raise (i : instruction) :
  is_raise (get_instruction_code g d i)
  <-> exists o, o ∈ Spec.operands_of i /\ is_raise (get_cpp_param g d o).
Proof.
  rewrite <- map_result_raise_iff.
  unfold get_instruction_code, instruction_params, Spec.operands_of.
  destruct (map_result _ _) as [ps|e]; cbn [bind].
  - split; by intros [? ?].
  - split; intros _; by eexists.
Qed.

(** X15.  The run is all or nothing: the text of the builder functions is
    produced exactly when every operand of every instruction of the grammar
    can be processed, and the run raises exactly when one cannot. *)
Theorem generated_code_all_or_nothing :
  (is_raise (generated_code g d)
   <-> exists i o,
         i ∈ instructions g /\ o ∈ Spec.operands_of i
         /\ is_raise (get_cpp_param g d o))
  /\ (is_ok (generated_code g d)
      <-> forall i o,
            i ∈ instructions g -> o ∈ Spec.operands_of i ->
            is_ok (get_cpp_param g d o)).
Proof.
  assert (is_raise (generated_code g d)
          <-> exists i o,
                i ∈ instructions g /\ o ∈ Spec.operands_of i
                /\ is_raise (get_cpp_param g d o)) as Hraise.
  { unfold generated_code.
    transitivity (is_raise (map_result (get_instruction_code g d)
                              (sorted opname (instructions g)))).
    { destruct (map_result (get_instruction_code g d) (sorted opname (instructions g)))
        as [codes|e]; cbn [bind]; split; intros [e' He']; try done; by exists e. }
    rewrite map_result_raise_iff. split.
    - intros (i & Hi & (o & Ho & Hraise)%get_instruction_code_raise).
      exists i, o. by rewrite <- (sorted_perm opname (instructions g)).
    - intros (i & o & Hi & Ho & Hraise). exists i.
      rewrite (sorted_perm opname (instructions g)). split; [done|].
      apply get_instruction_code_raise. by exists o. }
  split; [done|]. split.
  - intros [txt Hok] i o Hi Ho.
    destruct (result_ok_or_raise (get_cpp_param g d o)) as [|Hr]; [done|].
    exfalso.
    assert (is_raise (generated_code g d)) as [e He].
    { apply Hraise. exists i, o. done. }
    congruence.
  - intros Hall.
    destruct (result_ok_or_raise (generated_code g d)) as [|Hr]; [done|].
    apply Hraise in Hr as (i & o & Hi & Ho & [e He]).
    destruct (Hall i o Hi Ho) as [p Hp]. congruence.
Qed.

End WholeRun.

(** ** The rendering of a parameter *)

Section ParamDef.

Lemma span_all_true (p : ascii -> bool) (s : string) :
  all_chars p s = true -> Re.span p s = (s, "").
Proof.
  induction s as [|c s IH]; [done|]. cbn.
  intros [Hc Hs]%andb_prop. by rewrite Hc, IH.
Qed.

Lemma split_last_gt_snoc (e : string) :
  Re.split_last_gt (e +:+ ">") = Some (e, "").
Proof.
  induction e as [|c e IH]; [done|]. rewrite append_cons. cbn. by rewrite IH.
Qed.

Lemma sub_template_go_nil (fuel : nat) (tmpl : string) :
  Re.sub_template_go fuel tmpl "" = "".
Proof. by destruct fuel. Qed.

Lemma startswith_app (p r : string) : startswith (p +:+ r) p = true.
Proof.
  unfold startswith. induction p as [|c p IH]; [by destruct r|].
  rewrite append_cons. cbn. by destruct (ascii_dec c c).
Qed.

Lemma drop_chars_app (p r : string) : drop_chars (String.length p) (p +:+ r) = r.
Proof.
  induction p as [|c p IH]; [by destruct r|]. rewrite append_cons. cbn. done.
Qed.

Lemma sub_template_go_S (fuel : nat) (tmpl : string) (c : ascii) (s' : string) :
  Re.sub_template_go (S fuel) tmpl (String c s')
  = if startswith (String c s') (tmpl +:+ "<") then
      let after := drop_chars (String.length (tmpl +:+ "<")) (String c s') in
      let '(line, rest) := Re.span Re.not_newline after in
      match Re.split_last_gt line with
      | Some (group, line_rest) =>
          ("const " +:+ (tmpl +:+ "<") +:+ group +:+ ">&")
          +:+ Re.sub_template_go
                (fuel - String.length (tmpl +:+ "<") - String.length group)
                tmpl (line_rest +:+ rest)
      | None => String c (Re.sub_template_go fuel tmpl s')
      end
    else String c (Re.sub_template_go fuel tmpl s').
Proof. done. Qed.

(** The substitution on a type that is the template applied to one line of
    text. *)
Lemma sub_template_whole (tmpl e : string) :
  tmpl <> "" ->
  all_chars Re.not_newline e = true ->
  Re.sub_template tmpl ((tmpl +:+ "<") +:+ e +:+ ">")
  = "const " +:+ (tmpl +:+ "<") +:+ e +:+ ">&".
Proof.
  intros Hne He. unfold Re.sub_template.
  destruct ((tmpl +:+ "<") +:+ e +:+ ">") as [|c s'] eqn:Htext.
  { destruct tmpl; done. }
  cbn [String.length]. rewrite sub_template_go_S, <- Htext.
  rewrite startswith_app, drop_chars_app. cbv zeta.
  rewrite span_all_true by (by rewrite all_chars_append, He).
  rewrite split_last_gt_snoc. change ("" +:+ "") with "".
  by rewrite sub_template_go_nil, append_nil_r.
Qed.

(** X16.  A parameter is rendered as its type, its name and its default
    value.  A string, and a vector or tuple type over one line of text, is
    passed by reference to a constant; a type that is none of these is
    passed by value, as it is. *)
Theorem param_def_rendering (n dflt : string) :
  get_param_def (CppParam "std::string" n dflt)
  = "const std::string& " +:+ n +:+ dflt
  /\ (forall e, all_chars Re.not_newline e = true ->
        get_param_def (CppParam ("std::vector<" +:+ e +:+ ">") n dflt)
        = "const std::vector<" +:+ e +:+ ">& " +:+ n +:+ dflt)
  /\ (forall e, all_chars Re.not_newline e = true ->
        get_param_def (CppParam ("std::tuple<" +:+ e +:+ ">") n dflt)
        = "const std::tuple<" +:+ e +:+ ">& " +:+ n +:+ dflt)
  /\ (forall t, t <> "std::string" ->
        startswith t "std::vector" = false ->
        startswith t "std::tuple" = false ->
        get_param_def (CppParam t n dflt) = t +:+ " " +:+ n +:+ dflt).
Proof.
  split; [done|]. split; [|split].
  - intros e He. unfold get_param_def. cbn [param_type param_name default_value].
    assert (String.eqb ("std::vector<" +:+ e +:+ ">") "std::string" = false) as ->
      by done.
    assert (startswith ("std::vector<" +:+ e +:+ ">") "std::vector" = true) as ->
      by done.
    assert (Re.sub_template "std::vector" ("std::vector<" +:+ e +:+ ">")
            = "const std::vector<" +:+ e +:+ ">&") as ->
      by (by apply (sub_template_whole "std::vector" e)).
    assert (startswith ("const std::vector<" +:+ e +:+ ">&") "std::tuple" = false) as ->
      by done.
    by rewrite !append_assoc.
  - intros e He. unfold get_param_def. cbn [param_type param_name default_value].
    assert (String.eqb ("std::tuple<" +:+ e +:+ ">") "std::string" = false) as ->
      by done.
    assert (startswith ("std::tuple<" +:+ e +:+ ">") "std::vector" = false) as ->
      by done.
    assert (startswith ("std::tuple<" +:+ e +:+ ">") "std::tuple" = true) as ->
      by done.
    assert (Re.sub_template "std::tuple" ("std::tuple<" +:+ e +:+ ">")
            = "const std::tuple<" +:+ e +:+ ">&") as ->
      by (by apply (sub_template_whole "std::tuple" e)).
    by rewrite !append_assoc.
  - intros t Ht Hvector Htuple. unfold get_param_def.
    cbn [param_type param_name default_value].
    destruct (String.eqb_spec t "std::string") as [|_]; [done|].
    by rewrite Hvector, Htuple.
Qed.

End ParamDef.

Lemma param_def_rendering_witness :
  get_param_def (CppParam "std::vector<std::tuple<IdRef, uint32_t>>" "pairs" " = {}")
  = "const std::vector<std::tuple<IdRef, uint32_t>>& pairs = {}"
  /\ get_param_def (CppParam "std::optional<IdRef>" "bias" " = {}")
     = "std::optional<IdRef> bias = {}".
Proof.
  destruct (param_def_rendering "pairs" " = {}") as (_ & Hvector & _ & _).
  destruct (param_def_rendering "bias" " = {}") as (_ & _ & _ & Hvalue).
  split.
  - apply (Hvector "std::tuple<IdRef, uint32_t>"). reflexivity.
  - apply (Hvalue "std::optional<IdRef>"); [discriminate|reflexivity|reflexivity].
Defined.

(** ** The output file *)

Section OutputFile.

Lemma replace_go_skip (old new p s : string) :
  replace_go old new (String.length p) (p +:+ s) = replace_go old new 0 s.
Proof.
  induction p as [|c p IH]; [by destruct s|]. rewrite append_cons. by cbn.
Qed.

Lemma replace_go_nil (old new : string) (skip : nat) :
  replace_go old new skip "" = "".
Proof. done. Qed.

(** Text without the first character of [old] is passed over. *)
Lemma replace_prefix (c0 : ascii) (old' new pre s : string) :
  all_chars (fun c => negb (Ascii.eqb c c0)) pre = true ->
  replace (String c0 old') new (pre +:+ s) = pre +:+ replace (String c0 old') new s.
Proof.
  unfold replace. induction pre as [|c pre IH]; [done|].
  rewrite !append_cons. cbn [all_chars replace_go].
  intros [Hc Hpre]%andb_prop. apply negb_true_iff in Hc.
  assert (startswith (String c (pre +:+ s)) (String c0 old') = false) as ->.
  { unfold startswith. cbn. destruct (ascii_dec c0 c) as [->|]; [|done].
    by rewrite Ascii.eqb_refl in Hc. }
  by rewrite IH.
Qed.

Lemma replace_none (c0 : ascii) (old' new s : string) :
  all_chars (fun c => negb (Ascii.eqb c c0)) s = true ->
  replace (String c0 old') new s = s.
Proof.
  intros Hs. rewrite <- (append_nil_r s) at 1.
  rewrite replace_prefix by done. unfold replace. by rewrite replace_go_nil, append_nil_r.
Qed.

(** An occurrence of [old] is replaced, and the search goes on after it. *)
Lemma replace_hit (c0 : ascii) (old' new s : string) :
  replace (String c0 old') new (String c0 old' +:+ s)
  = new +:+ replace (String c0 old') new s.
Proof.
  unfold replace. rewrite append_cons. cbn [replace_go].
  assert (startswith (String c0 (old' +:+ s)) (String c0 old') = true) as ->
    by (rewrite <- append_cons; apply startswith_app).
  replace (String.length (String c0 old') - 1) with (String.length old')
    by (cbn [String.length]; lia).
  by rewrite replace_go_skip.
Qed.

(** A position where [old] does not start is copied. *)
Lemma replace_miss (old new : string) (c : ascii) (s : string) :
  startswith (String c s) old = false ->
  replace old new (String c s) = String c (replace old new s).
Proof. unfold replace. cbn [replace_go]. by intros ->. Qed.

(** X17.  When the text of the builder functions is produced and neither
    it nor the text of the aliases has the character [#], a template whose
    text around its two markers has no [#] is written with the first
    marker replaced by the builder functions and the second by the aliases;
    and a template without [#] is written as it is. *)
Theorem template_markers_replaced (g : grammar) (d : nat)
    (code pre mid post : string) :
  generated_code g d = Ok code ->
  all_chars not_hash code = true ->
  all_chars not_hash (get_spv_ids_types g) = true ->
  all_chars not_hash pre = true ->
  all_chars not_hash mid = true ->
  all_chars not_hash post = true ->
  written_text
    (pre +:+ "#generated_code" +:+ mid +:+ "#generated_spv_id_types" +:+ post) g d
  = Ok (pre +:+ code +:+ mid +:+ get_spv_ids_types g +:+ post)
  /\ written_text pre g d = Ok pre.
Proof.
  intros Hcode Hc Hi Hpre Hmid Hpost. unfold written_text. rewrite Hcode.
  cbn [bind]. unfold not_hash in *. split.
  - (* the first replacement *)
    rewrite (replace_prefix "#" "generated_code" code pre) by exact Hpre.
    rewrite (replace_hit "#" "generated_code" code).
    rewrite (replace_prefix "#" "generated_code" code mid) by exact Hmid.
    rewrite (append_cons "#" "generated_spv_id_types" post).
    rewrite (replace_miss "#generated_code" code "#"
               ("generated_spv_id_types" +:+ post)) by reflexivity.
    rewrite (replace_none "#" "generated_code" code
               ("generated_spv_id_types" +:+ post))
      by (rewrite all_chars_append, Hpost; reflexivity).
    rewrite <- (append_cons "#" "generated_spv_id_types" post).
    (* the second replacement *)
    rewrite <- (append_assoc pre code), <- (append_assoc (pre +:+ code) mid).
    rewrite (replace_prefix "#" "generated_spv_id_types" (get_spv_ids_types g)
               ((pre +:+ code) +:+ mid))
      by (rewrite !all_chars_append, Hpre, Hc, Hmid; reflexivity).
    rewrite (replace_hit "#" "generated_spv_id_types").
    rewrite (replace_none "#" "generated_spv_id_types" _ post) by exact Hpost.
    (* the third replacement *)
    rewrite !append_assoc. apply f_equal.
    apply (replace_none "#" "generated_code").
    rewrite !all_chars_append, Hpre, Hc, Hmid, Hi, Hpost. reflexivity.
  - rewrite (replace_none "#" "generated_code" code pre) by exact Hpre.
    rewrite (replace_none "#" "generated_spv_id_types" _ pre) by exact Hpre.
    rewrite (replace_none "#" "generated_code" code pre) by exact Hpre.
    reflexivity.
Qed.

End OutputFile.

Lemma template_markers_replaced_witness :
  written_text
    ("// functions" +:+ "#generated_code" +:+ "// aliases: "
     +:+ "#generated_spv_id_types" +:+ " // end") nop_grammar 1
  = Ok ("// functions"
        +:+ (newline +:+ "    void OpNop()"
             +:+ newline +:+ "    {"
             +:+ newline +:+ "    uint16_t wordCount = 1;"
             +:+ newline +:+ "    "
             +:+ newline
             +:+ newline +:+ "    writeWord(spv::Op::OpNop, wordCount);"
             +:+ newline +:+ "    writeWords();"
             +:+ newline +:+ "    }")
        +:+ "// aliases: " +:+ get_spv_ids_types nop_grammar +:+ " // end")
  /\ written_text "// functions" nop_grammar 1 = Ok "// functions".
Proof.
  apply (template_markers_replaced nop_grammar 1 _
           "// functions" "// aliases: " " // end"); reflexivity.
Defined.

Lemma instruction_params_follow_operands_witness :
  Forall2 (fun o p => get_cpp_type example_grammar 1 o = Ok (param_type p))
    (Spec.operands_of ext_inst_instruction) ext_inst_params
  /\ Forall2 (fun o p => exists n, get_cpp_param_name o = Ok n
                                   /\ numbered_from n (param_name p))
       (Spec.operands_of ext_inst_instruction) ext_inst_params.
Proof.
  apply (instruction_params_follow_operands example_grammar 1
           ext_inst_instruction ext_inst_params).
  reflexivity.
Defined.

(** ** The two case helpers *)

Section CaseHelpers.

Lemma lower_char_not_upper (c : ascii) : is_upper_char (lower_char c) = false.
Proof. by destruct c as [[] [] [] [] [] [] [] []]. Qed.

Lemma lower_char_of_upper (c : ascii) :
  is_upper_char c = true -> is_lower_char (lower_char c) = true.
Proof. by destruct c as [[] [] [] [] [] [] [] []]. Qed.

Lemma lower_char_other (c : ascii) :
  is_upper_char c = false -> lower_char c = c.
Proof. unfold lower_char. by intros ->. Qed.

Lemma upper_char_not_lower (c : ascii) : is_lower_char (upper_char c) = false.
Proof. by destruct c as [[] [] [] [] [] [] [] []]. Qed.

(** X18.  Both case helpers are idempotent and keep the length of the
    text, and [decapitalize] changes nothing but the first character. *)
Theorem case_helpers_idempotent (s : string) :
  decapitalize (decapitalize s) = decapitalize s
  /\ capitalize (capitalize s) = capitalize s
  /\ String.length (decapitalize s) = String.length s
  /\ String.length (capitalize s) = String.length s
  /\ tail1 (decapitalize s) = tail1 s.
Proof.
  destruct s as [|c s]; [done|].
  assert (decapitalize (String c s)
          = if isupper (String c s) then String c s else String (lower_char c) s)
    as Hd by (unfold decapitalize; by destruct (isupper (String c s))).
  assert (capitalize (String c s) = String (upper_char c) s) as Hc by done.
  assert (capitalize (String (upper_char c) s) = String (upper_char c) s) as Hcc.
  { change (String (upper_char (upper_char c)) s = String (upper_char c) s).
    unfold upper_char at 1. by rewrite upper_char_not_lower. }
  split; [|split; [|split; [|split]]].
  - rewrite Hd. destruct (isupper (String c s)) eqn:Hup;
      [unfold decapitalize; by rewrite Hup|].
    unfold decapitalize.
    assert (isupper (String (lower_char c) s) = false) as ->.
    { destruct (is_upper_char c) eqn:Hc'.
      - unfold isupper. cbn [any_char]. by rewrite (lower_char_of_upper c Hc').
      - by rewrite (lower_char_other c Hc'). }
    change (String (lower_char (lower_char c)) s = String (lower_char c) s).
    by rewrite (lower_char_other (lower_char c) (lower_char_not_upper c)).
  - by rewrite Hc, Hcc.
  - rewrite Hd. by destruct (isupper (String c s)).
  - by rewrite Hc.
  - rewrite Hd. by destruct (isupper (String c s)).
Qed.

End CaseHelpers.
